(** * Vitess: COLLATE / introducer expressions of the evalengine, the SQL
      parser's entry points, and the schema tracker

    A shallow embedding of
    - [go/vt/vtgate/evalengine]: [CollateExpr] and [IntroducerExpr], their
      tree-walking [eval] and their [compile] into the bytecode of the
      evalengine virtual machine, and [introducerCast];
    - [go/vt/sqlparser/parser.go]: [yyParsePooled] and its [sync.Pool],
      [ConvertMySQLVersionToCommentVersion], [New], [IsMySQL80AndAbove],
      [Parse2], [Parse], [ParseStrictDDL], [ParseNext], [ParseNextStrictDDL]
      and [SplitStatementToPieces];
    - [go/vt/vttablet/tabletserver/schema] (the tracker):
      [MustReloadSchemaOnDDL], the functions that read and write the
      schema_version table, the function [process] hands to the stream, and
      [Open], [Close] and [Enable].

    Go values are modelled as the code has them: an [eval] is a Go interface
    (nil, a [*evalBytes], or any other dynamic type), a function returning
    [(T, error)] returns an [outcome], and a nil dereference or a failed type
    assertion is a [Panic]. *)

From Stdlib Require Import ZArith Lia Bool String DecimalString.
From Stdlib Require Import Init.Byte.
From Stdlib Require Import Ascii DecimalN.
From stdpp Require Import base list gmap.

Local Open Scope Z_scope.
#[local] Set Warnings "-clear-no-such-hyp".
#[local] Set Warnings "-unused-pattern-matching-variable".

(** ** Results of Go calls *)

(** vtrpcpb.Code, the error taxonomy of vterrors. *)
Inductive Code : Set :=
| Code_UNKNOWN
| Code_INVALID_ARGUMENT
| Code_UNIMPLEMENTED
| Code_INTERNAL
| Code_OUT_OF_RANGE.

(** A Go [error] as vterrors builds it: a code and a message. *)
Record error : Set := vterrors_New { err_code : Code; err_msg : string }.

Inductive panic : Set :=
| NilDereference        (* field access through a nil pointer *)
| NilInterfaceCall      (* method call on a nil interface *)
| TypeAssertionFailed   (* x.(T) without the comma-ok form *)
| IndexOutOfRange.

Inductive outcome (A : Type) : Type :=
| Ok (a : A)
| Err (e : error)
| Panic (p : panic).
Arguments Ok {A} a.
Arguments Err {A} e.
Arguments Panic {A} p.

Definition obind {A B} (m : outcome A) (k : A -> outcome B) : outcome B :=
  match m with
  | Ok a => k a
  | Err e => Err e
  | Panic p => Panic p
  end.

Notation "x <-- m ;; k" := (obind m (fun x => k))
  (at level 100, m at next level, right associativity).

(** ** collations *)

Definition ID := Z.

Inductive Coercibility : Set :=
| CoerceExplicit
| CoerceNone
| CoerceImplicit
| CoerceSysconst
| CoerceCoercible
| CoerceNumeric
| CoerceIgnorable.

Inductive Repertoire : Set :=
| RepertoireASCII
| RepertoireUnicode.

Record TypedCollation : Set := {
  Collation : ID;
  Coercibility_ : Coercibility;
  Repertoire_ : Repertoire
}.

(** The dynamic type of a [charset.Charset], as far as [introducerCast]
    switches on it. *)
Inductive Charset : Set :=
| Charset_utf16
| Charset_utf16le
| Charset_ucs2
| Charset_utf32
| Charset_other (name : string).

(** collations.Environment, reduced to the method the two nodes call:
    [EnsureCollate fromID toID] is [None] for Go's nil error and [Some msg]
    for an error whose text is [msg]. *)
Record Environment : Type := {
  EnsureCollate : ID -> ID -> option string
}.

(** ** sqltypes and type flags *)

(** Modelled from the spec: the closed set of type tags of section 3 (the
    declaration of sqltypes.Type is not part of the sources); only [VarChar]
    and [VarBinary] are named by the code embedded here. *)
Inductive sqlType : Set :=
| Null_type | Int64 | Uint64 | Float64 | Decimal
| VarChar | VarBinary | Char | Binary | Text | Blob
| TypeJSON | Date | Datetime | Time | Timestamp.

Definition typeFlag := Z.

(** Modelled from the spec: the flag bits [Nullable] and [ExplicitCollation]
    of section 3; the constants are declared outside the sources, each is a
    single bit of a uint16. *)
Definition flagNullable : typeFlag := Z.shiftl 1 1.
Definition flagExplicitCollation : typeFlag := Z.shiftl 1 10.

Definition has_flag (f m : typeFlag) : bool := negb (Z.land f m =? 0).

(** ** Values *)

(** Modelled from the spec: the struct behind [*evalBytes] (type tag, flag
    bits, collation, payload); the code reads [e.col], [b.bytes] and writes
    [b.flag]. *)
Record evalBytes : Set := {
  tt : sqlType;
  flag : typeFlag;
  col : TypedCollation;
  bytes : list byte
}.

(** Modelled from the spec: the constructors of a byte value. A fresh value
    has no flag set. *)
Definition newEvalRaw (typ : sqlType) (raw : list byte) (c : TypedCollation) : evalBytes :=
  {| tt := typ; flag := 0; col := c; bytes := raw |}.

Definition newEvalText (raw : list byte) (c : TypedCollation) : evalBytes :=
  newEvalRaw VarChar raw c.

(** Modelled from the spec: "re-tag the inner value's collation to the
    explicit target": the same type tag and bytes under collation [c]. *)
Definition withCollation (e : evalBytes) (c : TypedCollation) : evalBytes :=
  newEvalRaw (tt e) (bytes e) c.

(** [b.flag |= m] *)
Definition or_flag (b : evalBytes) (m : typeFlag) : evalBytes :=
  {| tt := tt b; flag := Z.lor (flag b) m; col := col b; bytes := bytes b |}.

Section Values.
(** The dynamic types of an [eval] other than [*evalBytes] (numbers,
    decimals, temporal values, JSON, ...). *)
Context {evalOther : Type}.

(** The Go interface [eval]: nil is SQL NULL. *)
Inductive eval : Type :=
| eval_nil
| eval_bytes (b : evalBytes)
| eval_other (o : evalOther).
End Values.
Arguments eval : clear implicits.

(** The parts of the package that the sources call and do not define. *)
Class Helpers (evalOther : Type) : Type := {
  (** collations.CollationBinaryID *)
  CollationBinaryID : ID;
  (** [colldata.Lookup(col).Charset()]; [None] when the table has no such
      collation (Lookup returns nil, and the method call panics). *)
  colldata_Lookup_Charset : ID -> option Charset;
  (** The method [ToRawBytes] of a pointer to evalBytes, applied to a receiver that may
      be the nil pointer ([None]). *)
  evalBytes_ToRawBytes : option evalBytes -> outcome (list byte);
  (** [evalToBinary(e)] *)
  evalToBinary : eval evalOther -> outcome evalBytes;
  (** [evalToVarchar(e, col, convert)] *)
  evalToVarchar : eval evalOther -> ID -> bool -> outcome evalBytes
}.

(** The package-level collations of the file. *)
Section PackageCollations.
Context {evalOther : Type} `{!Helpers evalOther}.

Definition collationNull : TypedCollation :=
  {| Collation := CollationBinaryID; Coercibility_ := CoerceIgnorable; Repertoire_ := RepertoireASCII |}.
Definition collationNumeric : TypedCollation :=
  {| Collation := CollationBinaryID; Coercibility_ := CoerceNumeric; Repertoire_ := RepertoireASCII |}.
Definition collationBinary : TypedCollation :=
  {| Collation := CollationBinaryID; Coercibility_ := CoerceCoercible; Repertoire_ := RepertoireASCII |}.
Definition collationJSON : TypedCollation :=
  {| Collation := 46; Coercibility_ := CoerceImplicit; Repertoire_ := RepertoireUnicode |}.
End PackageCollations.

(** ** introducerCast *)

Section IntroducerCast.
Context {evalOther : Type} `{!Helpers evalOther}.

(** The padding of the [switch cs.(type)] of [introducerCast]. *)
Definition pad_for (cs : Charset) (bs : list byte) : list byte :=
  match cs with
  | Charset_utf16 | Charset_utf16le | Charset_ucs2 =>
      if negb (Z.of_nat (length bs) mod 2 =? 0) then x00 :: bs else bs
  | Charset_utf32 =>
      let mod_ := Z.of_nat (length bs) mod 4 in
      if negb (mod_ =? 0) then replicate (Z.to_nat (4 - mod_)) x00 ++ bs else bs
  | Charset_other _ => bs
  end.

Definition introducerCast (e : eval evalOther) (c : ID) : outcome evalBytes :=
  if c =? CollationBinaryID then evalToBinary e
  else
    bs <-- match e with
           | eval_bytes b =>
               match colldata_Lookup_Charset c with
               | None => Panic NilInterfaceCall
               | Some cs => Ok (pad_for cs (bytes b))
               end
           | _ =>
               (* [b, ok := e.( *evalBytes ); !ok]: b is the nil pointer *)
               evalBytes_ToRawBytes None
           end ;;
    let typedcol :=
      {| Collation := c; Coercibility_ := CoerceCoercible; Repertoire_ := RepertoireASCII |} in
    Ok (newEvalText bs typedcol).
End IntroducerCast.


(** ** Execution context, bytecode and compiler state *)

Section Engine.
Context {evalOther : Type} `{!Helpers evalOther}.

(** ExpressionEnv: the current row, the collation environment, and the
    value stack of the virtual machine. [vm_stack] holds the live slots
    [stack[0..sp)], so [sp] is its length and [stack[sp-offset]] is the
    slot [offset] below the top. *)
Record ExpressionEnv : Type := {
  Row : list (eval evalOther);
  collationEnv : Environment;
  vm_stack : list (eval evalOther)
}.

Definition set_stack (env : ExpressionEnv) (s : list (eval evalOther)) : ExpressionEnv :=
  {| Row := Row env; collationEnv := collationEnv env; vm_stack := s |}.

(** [env.vm.stack[env.vm.sp-offset]] *)
Definition slot (env : ExpressionEnv) (offset : Z) : option (eval evalOther) :=
  let i := Z.of_nat (length (vm_stack env)) - offset in
  if i <? 0 then None else vm_stack env !! Z.to_nat i.

(** [env.vm.stack[env.vm.sp-offset] = v] *)
Definition set_slot (env : ExpressionEnv) (offset : Z) (v : eval evalOther) : ExpressionEnv :=
  set_stack env (<[Z.to_nat (Z.of_nat (length (vm_stack env)) - offset) := v]> (vm_stack env)).

(** ctype: the compile-time descriptor of a stack slot. *)
Record ctype : Set := {
  Type_ : sqlType;
  Flag : typeFlag;
  Col : TypedCollation
}.

(** [ct.nullable()] *)
Definition nullable (ct : ctype) : bool := has_flag (Flag ct) flagNullable.

(** The instructions the two nodes emit, and [Frame] for any other
    instruction (the code an inner expression compiles to): a closure over
    the execution context that answers the offset to add to the
    instruction pointer. *)
Inductive instr : Type :=
| NullCheck1 (offset : Z)
| Collate (c : TypedCollation)
| Convert_xc (offset : Z) (t : sqlType) (c : ID) (len : option Z)
| Introduce (offset : Z) (t : sqlType) (c : TypedCollation)
| Frame (f : ExpressionEnv -> outcome (ExpressionEnv * Z)).

Record compiler : Type := {
  asm_ins : list instr;
  c_env : Environment
}.

(** The compiler is threaded through [compile]: a computation answers a
    result and the compiler as it left it. *)
Definition comp (A : Type) : Type := compiler -> outcome A * compiler.

Definition cret {A} (a : A) : comp A := fun c => (Ok a, c).
Definition cfail {A} (e : error) : comp A := fun c => (Err e, c).
Definition cbind {A B} (m : comp A) (k : A -> comp B) : comp B :=
  fun c =>
    match m c with
    | (Ok a, c') => k a c'
    | (Err e, c') => (Err e, c')
    | (Panic p, c') => (Panic p, c')
    end.

(** [asm.emit] *)
Definition emit (i : instr) : comp unit :=
  fun c => (Ok (), {| asm_ins := asm_ins c ++ [i]; c_env := c_env c |}).

(** The interface IR: every expression node has an [eval] and a
    [compile]. *)
Record IR : Type := {
  IR_eval : ExpressionEnv -> outcome (eval evalOther);
  IR_compile : comp ctype
}.

End Engine.
Arguments ExpressionEnv : clear implicits.
Arguments instr : clear implicits.
Arguments compiler : clear implicits.
Arguments comp : clear implicits.
Arguments IR : clear implicits.

Notation "x <~ m ;; k" := (cbind m (fun x => k))
  (at level 100, m at next level, right associativity).
Notation "m ;;; k" := (cbind m (fun _ => k))
  (at level 100, right associativity).

(** ** The assembler and the null check *)

Section Assembler.
Context {evalOther : Type}.

(** Modelled from the spec: [compileNullCheck1] (not part of the sources).
    "Before operator instructions, may emit a conditional forward skip (if
    current slot is NULL, jump to L); L is a placeholder": when the slot can
    be NULL the placeholder is emitted and its position recorded. *)
Definition compileNullCheck1 (ct : ctype) : comp evalOther (option nat) :=
  fun c =>
    if nullable ct
    then (Ok (Some (length (asm_ins c))),
          {| asm_ins := asm_ins c ++ [NullCheck1 0]; c_env := c_env c |})
    else (Ok None, c).

(** Modelled from the spec: [asm.jumpDestination] (not part of the
    sources). "Fix its offset once the target address is fixed": the
    placeholder at [from] now jumps to the end of the code emitted so far. *)
Definition jumpDestination (skip : option nat) : comp evalOther unit :=
  fun c =>
    match skip with
    | None => (Ok (), c)
    | Some from =>
        let target := Z.of_nat (length (asm_ins c)) - Z.of_nat from in
        (Ok (), {| asm_ins := alter (fun i => match i with
                                               | NullCheck1 _ => NullCheck1 target
                                               | _ => i
                                               end) from (asm_ins c);
                   c_env := c_env c |})
    end.

Definition asm_Collate (tc : TypedCollation) : comp evalOther unit :=
  emit (Collate tc).
Definition asm_Convert_xc (offset : Z) (t : sqlType) (c : ID) (len : option Z) : comp evalOther unit :=
  emit (Convert_xc offset t c len).
Definition asm_Introduce (offset : Z) (t : sqlType) (tc : TypedCollation) : comp evalOther unit :=
  emit (Introduce offset t tc).

End Assembler.

(** ** CollateExpr and IntroducerExpr *)

Section Nodes.
Context {evalOther : Type} `{!Helpers evalOther}.

Record CollateExpr : Type := {
  Inner : IR evalOther;
  TypedCollation_ : TypedCollation;
  CollationEnv : Environment
}.

Record IntroducerExpr : Type := {
  IInner : IR evalOther;
  ITypedCollation : TypedCollation;
  ICollationEnv : Environment
}.

Definition CollateExpr_eval (c : CollateExpr) (env : ExpressionEnv evalOther)
  : outcome (eval evalOther) :=
  e <-- IR_eval (Inner c) env ;;
  match e with
  | eval_nil => Ok eval_nil
  | eval_bytes e' =>
      match EnsureCollate (collationEnv env) (Collation (col e')) (Collation (TypedCollation_ c)) with
      | Some msg => Err (vterrors_New Code_INVALID_ARGUMENT msg)
      | None =>
          let b := withCollation e' (TypedCollation_ c) in
          Ok (eval_bytes (or_flag b flagExplicitCollation))
      end
  | eval_other _ =>
      b <-- evalToVarchar e (Collation (TypedCollation_ c)) true ;;
      Ok (eval_bytes (or_flag b flagExplicitCollation))
  end.

Definition CollateExpr_compile (expr : CollateExpr) : comp evalOther ctype :=
  ct <~ IR_compile (Inner expr) ;;
  skip <~ compileNullCheck1 ct ;;
  (match Type_ ct with
   | VarChar =>
       fun c =>
         match EnsureCollate (c_env c) (Collation (Col ct)) (Collation (TypedCollation_ expr)) with
         | Some msg => cfail (vterrors_New Code_INVALID_ARGUMENT msg) c
         | None => asm_Collate (TypedCollation_ expr) c   (* fallthrough *)
         end
   | VarBinary => asm_Collate (TypedCollation_ expr)
   | _ => asm_Convert_xc 1 VarChar (Collation (TypedCollation_ expr)) None
   end) ;;;
  jumpDestination skip ;;;
  cret {| Type_ := VarChar;
          Flag := Z.lor (Flag ct) (Z.lor flagExplicitCollation flagNullable);
          Col := TypedCollation_ expr |}.

Definition IntroducerExpr_eval (expr : IntroducerExpr) (env : ExpressionEnv evalOther)
  : outcome (eval evalOther) :=
  e <-- IR_eval (IInner expr) env ;;
  b <-- introducerCast e (Collation (ITypedCollation expr)) ;;
  Ok (eval_bytes (or_flag b flagExplicitCollation)).

Definition IntroducerExpr_compile (expr : IntroducerExpr) : comp evalOther ctype :=
  _ <~ IR_compile (IInner expr) ;;
  let t := if Collation (ITypedCollation expr) =? CollationBinaryID then VarBinary else VarChar in
  asm_Introduce 1 t (ITypedCollation expr) ;;;
  cret {| Type_ := t; Flag := flagExplicitCollation; Col := ITypedCollation expr |}.

(** [var _ IR = ( *CollateExpr)(nil)] and [var _ IR = ( *IntroducerExpr)(nil)] *)
Definition CollateExpr_IR (c : CollateExpr) : IR evalOther :=
  {| IR_eval := CollateExpr_eval c; IR_compile := CollateExpr_compile c |}.

Definition IntroducerExpr_IR (expr : IntroducerExpr) : IR evalOther :=
  {| IR_eval := IntroducerExpr_eval expr; IR_compile := IntroducerExpr_compile expr |}.

(** The node [expr COLLATE c COLLATE c] over the node [expr COLLATE c]. *)
Definition collate_again (c : CollateExpr) : CollateExpr :=
  {| Inner := CollateExpr_IR c;
     TypedCollation_ := TypedCollation_ c;
     CollationEnv := CollationEnv c |}.

(** The instruction a COLLATE node emits for an inner slot of type [ct]. *)
Definition collate_op (ct : ctype) (tc : TypedCollation) : instr evalOther :=
  match Type_ ct with
  | VarChar | VarBinary => Collate tc
  | _ => Convert_xc 1 VarChar (Collation tc) None
  end.

(** The convertibility check [CollateExpr_compile] makes for an inner slot
    of type [ct]: none unless the type is VarChar. *)
Definition collate_check (cenv : Environment) (ct : ctype) (tc : TypedCollation) : option string :=
  match Type_ ct with
  | VarChar => EnsureCollate cenv (Collation (Col ct)) (Collation tc)
  | _ => None
  end.

Definition null_check (ct : ctype) (target : Z) : list (instr evalOther) :=
  if nullable ct then [NullCheck1 target] else [].

End Nodes.
Arguments CollateExpr : clear implicits.
Arguments IntroducerExpr : clear implicits.

(** ** The virtual machine *)

Section VM.
Context {evalOther : Type} `{!Helpers evalOther}.

(** [a.col = c] on the value of a slot, the other fields kept. *)
Definition set_col (a : evalBytes) (c : TypedCollation) : evalBytes :=
  {| tt := tt a; flag := flag a; col := c; bytes := bytes a |}.

(** [arg.tt = t] *)
Definition set_tt (a : evalBytes) (t : sqlType) : evalBytes :=
  {| tt := t; flag := flag a; col := col a; bytes := bytes a |}.

(** Modelled from the spec: what the instructions do when they run (the
    assembler is not part of the sources).
    - [NullCheck1]: "if current slot is NULL, jump to L".
    - [Collate]: "a lightweight rewrite collation metadata in place
      instruction"; the slot must hold a byte value.
    - [Convert_xc]: "a genuine convert charset instruction that performs the
      transcoding at runtime", by the conversion the interpreter uses.
    - [Introduce]: "reinterprets the top-of-stack value's bytes in place,
      applying the padding rule at runtime", by [introducerCast], to the
      type and collation the instruction carries. *)
Definition exec (i : instr evalOther) (env : ExpressionEnv evalOther)
  : outcome (ExpressionEnv evalOther * Z) :=
  match i with
  | NullCheck1 off =>
      match slot env 1 with
      | None => Panic IndexOutOfRange
      | Some eval_nil => Ok (env, off)
      | Some _ => Ok (env, 1)
      end
  | Collate tc =>
      match slot env 1 with
      | None => Panic IndexOutOfRange
      | Some (eval_bytes a) =>
          Ok (set_slot env 1 (eval_bytes (or_flag (set_col a tc) flagExplicitCollation)), 1)
      | Some _ => Panic TypeAssertionFailed
      end
  | Convert_xc off t c len =>
      match slot env off with
      | None => Panic IndexOutOfRange
      | Some arg =>
          b <-- evalToVarchar arg c true ;;
          Ok (set_slot env off (eval_bytes b), 1)
      end
  | Introduce off t tc =>
      match slot env off with
      | None => Panic IndexOutOfRange
      | Some arg =>
          b <-- introducerCast arg (Collation tc) ;;
          Ok (set_slot env off (eval_bytes (or_flag (set_tt b t) flagExplicitCollation)), 1)
      end
  | Frame f => f env
  end.

(** Modelled from the spec: the loop of the virtual machine, [for ip <
    len(code) { ip += code[ip](env) }], stopped by a runtime error. [fuel]
    bounds the number of instructions executed; [None] is fuel exhausted. *)
Fixpoint run (fuel : nat) (code : list (instr evalOther)) (ip : Z)
  (env : ExpressionEnv evalOther) : option (outcome (ExpressionEnv evalOther * Z)) :=
  if Z.of_nat (length code) <=? ip then Some (Ok (env, ip))
  else
    match fuel with
    | O => None
    | S n =>
        if ip <? 0 then Some (Panic IndexOutOfRange)
        else
          match code !! Z.to_nat ip with
          | None => Some (Panic IndexOutOfRange)
          | Some i =>
              match exec i env with
              | Ok (env', off) => run n code (ip + off) env'
              | Err e => Some (Err e)
              | Panic p => Some (Panic p)
              end
          end
    end.

(** Modelled from the spec: a run starts on an empty stack at the first
    instruction and "ends either normally, exactly one value remains on the
    stack, the expression's result, or aborts with a runtime error". Every
    jump is forward, so [length code] instructions are enough. *)
Definition EvaluateVM (code : list (instr evalOther)) (env : ExpressionEnv evalOther)
  : option (outcome (eval evalOther)) :=
  match run (length code) code 0 (set_stack env []) with
  | None => None
  | Some (Ok (env', _)) =>
      match vm_stack env' !! 0%nat with
      | Some v => Some (Ok v)
      | None => Some (Panic IndexOutOfRange)
      end
  | Some (Err e) => Some (Err e)
  | Some (Panic p) => Some (Panic p)
  end.

(** Modelled from the spec: [Compile(expr) -> Program | Error], the code a
    fresh compiler holds after the node's [compile]. *)
Definition Compile (expr : IR evalOther) (cenv : Environment)
  : outcome (list (instr evalOther)) :=
  match IR_compile expr {| asm_ins := []; c_env := cenv |} with
  | (Ok _, c) => Ok (asm_ins c)
  | (Err e, _) => Err e
  | (Panic p, _) => Panic p
  end.

(** Modelled from the spec: a Literal leaf of the expression tree; it
    evaluates to its value and compiles to one instruction that pushes it. *)
Definition Literal (v : eval evalOther) (ct : ctype) : IR evalOther :=
  {| IR_eval := fun _ => Ok v;
     IR_compile :=
       emit (Frame (fun env => Ok (set_stack env (vm_stack env ++ [v]), 1))) ;;;
       cret ct |}.

End VM.

(** ** sqlparser: the pooled parser *)

(** How [parser.Parse(yylex)] ends: it returns its int, or it panics. *)
Inductive exit : Set :=
| Returned (n : Z)
| Panicked.

Definition loc := positive.

Section ParserPool.
Context {yyParserImpl yyLexer : Type}.

(** The zero value of the struct yyParserImpl: what [&yyParserImpl{}]
    points to and what [var zeroParser yyParserImpl] holds. *)
Variable zero_yyParserImpl : yyParserImpl.

(** [parser.Parse(yylex)]: the state it leaves in its receiver, and how it
    ends. *)
Variable yyParserImpl_Parse : yyParserImpl -> yyLexer -> yyParserImpl * exit.

(** [var zeroParser yyParserImpl]; nothing assigns to it. *)
Definition zeroParser : yyParserImpl := zero_yyParserImpl.

(** A call of [yyParsePooled] in flight, by the statement it is at. *)
Inductive frame : Type :=
| Parsing (parser : loc) (yylex : yyLexer)   (* about to run parser.Parse(yylex) *)
| Deferred (parser : loc) (r : exit)         (* Parse is over: the deferred function starts *)
| Putting (parser : loc) (r : exit).         (* after [*parser = zeroParser] *)

Definition frame_parser (f : frame) : loc :=
  match f with
  | Parsing p _ | Deferred p _ | Putting p _ => p
  end.

(** The heap of parser objects, the pointers [parserPool] holds, and the
    calls in flight (one per goroutine inside [yyParsePooled]). *)
Record world : Type := {
  heap : gmap loc yyParserImpl;
  parserPool : list loc;
  calls : list frame
}.

Definition init_world : world := {| heap := ∅; parserPool := []; calls := [] |}.

(** [*p = v] *)
Definition store (p : loc) (v : yyParserImpl) (w : world) : world :=
  {| heap := <[p := v]> (heap w); parserPool := parserPool w; calls := calls w |}.

(** [parserPool.New]: [return &yyParserImpl{}] *)
Definition parserPool_New (w : world) : loc * world :=
  let p := fresh (dom (heap w)) in
  (p, store p zero_yyParserImpl w).

(** [parserPool.Get()] of a sequential caller: a pooled parser when there
    is one, a new one otherwise. *)
Definition parserPool_Get (w : world) : loc * world :=
  match parserPool w with
  | p :: rest => (p, {| heap := heap w; parserPool := rest; calls := calls w |})
  | [] => parserPool_New w
  end.

(** [parserPool.Put(parser)] *)
Definition parserPool_Put (p : loc) (w : world) : world :=
  {| heap := heap w; parserPool := p :: parserPool w; calls := calls w |}.

(** [yyParsePooled], run by one caller from start to end. The deferred
    function runs however [Parse] ends. *)
Definition yyParsePooled (yylex : yyLexer) (w : world) : exit * world :=
  let '(parser, w) := parserPool_Get w in
  match heap w !! parser with
  | None => (Panicked, w)
  | Some st =>
      let '(st', r) := yyParserImpl_Parse st yylex in
      let w := store parser st' w in
      (* defer func() { *parser = zeroParser; parserPool.Put(parser) }() *)
      let w := store parser zeroParser w in
      let w := parserPool_Put parser w in
      (r, w)
  end.

Definition set_calls (cs : list frame) (w : world) : world :=
  {| heap := heap w; parserPool := parserPool w; calls := cs |}.

(** The same statements, interleaved among concurrent callers. sync.Pool
    may hand out any pooled object or a new one, and may drop pooled
    objects at any time. *)
Inductive step : world -> world -> Prop :=
| step_Get_pooled w l1 p l2 yylex :
    parserPool w = l1 ++ p :: l2 ->
    step w {| heap := heap w; parserPool := l1 ++ l2;
              calls := Parsing p yylex :: calls w |}
| step_Get_new w yylex :
    step w (let '(p, w') := parserPool_New w in
            set_calls (Parsing p yylex :: calls w) w')
| step_Parse w c1 p yylex c2 st st' r :
    calls w = c1 ++ Parsing p yylex :: c2 ->
    heap w !! p = Some st ->
    yyParserImpl_Parse st yylex = (st', r) ->
    step w (set_calls (c1 ++ Deferred p r :: c2) (store p st' w))
| step_reset w c1 p r c2 :
    calls w = c1 ++ Deferred p r :: c2 ->
    step w (set_calls (c1 ++ Putting p r :: c2) (store p zeroParser w))
| step_Put w c1 p r c2 :
    calls w = c1 ++ Putting p r :: c2 ->
    step w (set_calls (c1 ++ c2) (parserPool_Put p w))
| step_drop w l1 p l2 :
    parserPool w = l1 ++ p :: l2 ->
    step w {| heap := heap w; parserPool := l1 ++ l2; calls := calls w |}.

Inductive reachable : world -> Prop :=
| reachable_init : reachable init_world
| reachable_step w w' : reachable w -> step w w' -> reachable w'.

(** What the pool promises: every pooled parser is in the all-zero state,
    and so is every parser a deferred function is about to put back. *)
Definition pool_zeroed (w : world) : Prop :=
  (forall p, p ∈ parserPool w -> heap w !! p = Some zeroParser) /\
  (forall p r, Putting p r ∈ calls w -> heap w !! p = Some zeroParser).

(** No parser is in the pool twice or shared between the pool and a call,
    or between two calls. *)
Definition unshared (w : world) : Prop :=
  NoDup (parserPool w ++ (frame_parser <$> calls w)) /\
  (forall p, p ∈ frame_parser <$> calls w -> is_Some (heap w !! p)).

End ParserPool.
Arguments frame : clear implicits.
Arguments world : clear implicits.

(** ** An instance: a few rows of MySQL's collation table *)

Module MySQL.

(** Modelled from the spec: the dynamic type of an integer value; its raw
    bytes are its decimal digits. *)
Definition evalInt64 : Type := Z.

Definition evalInt64_ToRawBytes (i : evalInt64) : list byte :=
  map Ascii.byte_of_ascii
    (list_ascii_of_string (DecimalString.NilZero.string_of_int (Z.to_int i))).

(** Modelled from the spec: the interface method [e.ToRawBytes()] of a
    value; a call on the nil interface panics. *)
Definition eval_ToRawBytes (e : eval evalInt64) : outcome (list byte) :=
  match e with
  | eval_nil => Panic NilInterfaceCall
  | eval_bytes b => Ok (bytes b)
  | eval_other i => Ok (evalInt64_ToRawBytes i)
  end.

(** Modelled from the spec: the catalog of section 6, "CollationID ->
    {charset, ...}", for ten collations under their MySQL ids: the name of
    the collation and of its charset, and the charset's dynamic type. *)
Definition catalog : list (ID * (string * string * Charset)) :=
  [ (8,   ("latin1_swedish_ci"%string,  "latin1"%string,  Charset_other "latin1"));
    (33,  ("utf8mb3_general_ci"%string, "utf8mb3"%string, Charset_other "utf8mb3"));
    (35,  ("ucs2_general_ci"%string,    "ucs2"%string,    Charset_ucs2));
    (45,  ("utf8mb4_general_ci"%string, "utf8mb4"%string, Charset_other "utf8mb4"));
    (46,  ("utf8mb4_bin"%string,        "utf8mb4"%string, Charset_other "utf8mb4"));
    (54,  ("utf16_general_ci"%string,   "utf16"%string,   Charset_utf16));
    (56,  ("utf16le_general_ci"%string, "utf16le"%string, Charset_utf16le));
    (60,  ("utf32_general_ci"%string,   "utf32"%string,   Charset_utf32));
    (63,  ("binary"%string,             "binary"%string,  Charset_other "binary"));
    (255, ("utf8mb4_0900_ai_ci"%string, "utf8mb4"%string, Charset_other "utf8mb4")) ].

Fixpoint lookup_id {A} (i : ID) (l : list (ID * A)) : option A :=
  match l with
  | [] => None
  | (j, a) :: l' => if i =? j then Some a else lookup_id i l'
  end.

Definition LookupName (i : ID) : string :=
  match lookup_id i catalog with Some (n, _, _) => n | None => ""%string end.
Definition LookupCharsetName (i : ID) : string :=
  match lookup_id i catalog with Some (_, cs, _) => cs | None => ""%string end.

(** Modelled from the spec: "validate convertibility (charset
    compatibility)": a collation is valid for a value whose collation
    belongs to the same charset. *)
Definition collations_env : Environment :=
  {| EnsureCollate := fun fromID toID =>
       if String.eqb (LookupCharsetName fromID) (LookupCharsetName toID) then None
       else Some ("COLLATION '" ++ LookupName toID ++ "' is not valid for CHARACTER SET '"
                    ++ LookupCharsetName fromID ++ "'")%string |}.

(** Modelled from the spec: the helpers the sources call and do not
    define.
    - [ToRawBytes] of a byte value answers its bytes; through the nil
      pointer the field read panics.
    - [evalToBinary]: "treat the byte sequence as opaque binary": the raw
      bytes of the value as a VarBinary under [collationBinary].
    - [evalToVarchar]: "cast to character form" under the collation asked
      for: the raw bytes of the value as a VarChar, with the coercibility
      and repertoire [introducerCast] gives to reinterpreted bytes. *)
#[export] Instance helpers : Helpers evalInt64 := {|
  CollationBinaryID := 63;
  colldata_Lookup_Charset := fun i =>
    match lookup_id i catalog with Some (_, _, cs) => Some cs | None => None end;
  evalBytes_ToRawBytes := fun p =>
    match p with Some b => Ok (bytes b) | None => Panic NilDereference end;
  evalToBinary := fun e =>
    let bin := {| Collation := 63; Coercibility_ := CoerceCoercible; Repertoire_ := RepertoireASCII |} in
    raw <-- eval_ToRawBytes e ;;
    Ok (newEvalRaw VarBinary raw bin);
  evalToVarchar := fun e c convert =>
    let typedcol := {| Collation := c; Coercibility_ := CoerceCoercible; Repertoire_ := RepertoireASCII |} in
    raw <-- eval_ToRawBytes e ;;
    Ok (newEvalText raw typedcol)
|}.

Definition utf8mb4_bin : TypedCollation :=
  {| Collation := 46; Coercibility_ := CoerceExplicit; Repertoire_ := RepertoireUnicode |}.
Definition utf16_general_ci : TypedCollation :=
  {| Collation := 54; Coercibility_ := CoerceExplicit; Repertoire_ := RepertoireUnicode |}.
Definition binary : TypedCollation :=
  {| Collation := 63; Coercibility_ := CoerceExplicit; Repertoire_ := RepertoireUnicode |}.

Definition empty_row : ExpressionEnv evalInt64 :=
  {| Row := []; collationEnv := collations_env; vm_stack := [] |}.

(** The binary string literal [_binary 'a'] (also [x'61']). *)
Definition lit_binary_a : evalBytes :=
  newEvalRaw VarBinary [x61] (collationBinary (evalOther := evalInt64)).
Definition binary_a : IR evalInt64 :=
  Literal (eval_bytes lit_binary_a)
    {| Type_ := VarBinary; Flag := 0; Col := collationBinary (evalOther := evalInt64) |}.

(** The character string literal ['abc'] in utf8mb4. *)
Definition lit_abc : evalBytes :=
  newEvalText [x61; x62; x63]
    {| Collation := 45; Coercibility_ := CoerceCoercible; Repertoire_ := RepertoireASCII |}.
Definition abc : IR evalInt64 :=
  Literal (eval_bytes lit_abc) {| Type_ := VarChar; Flag := 0; Col := col lit_abc |}.

(** The literals [1] and [NULL]. *)
Definition one : IR evalInt64 :=
  Literal (eval_other 1)
    {| Type_ := Int64; Flag := 0; Col := collationNumeric (evalOther := evalInt64) |}.
Definition null : IR evalInt64 :=
  Literal eval_nil
    {| Type_ := Null_type; Flag := Z.lor 1 flagNullable;
       Col := collationNull (evalOther := evalInt64) |}.

Definition collate (inner : IR evalInt64) (tc : TypedCollation) : IR evalInt64 :=
  CollateExpr_IR {| Inner := inner; TypedCollation_ := tc; CollationEnv := collations_env |}.
Definition introducer (inner : IR evalInt64) (tc : TypedCollation) : IR evalInt64 :=
  IntroducerExpr_IR {| IInner := inner; ITypedCollation := tc; ICollationEnv := collations_env |}.

(** [Compile(expr)] then [Program.Run(row)]. *)
Definition compile_and_run (expr : IR evalInt64) (row : ExpressionEnv evalInt64)
  : option (outcome (eval evalInt64)) :=
  match Compile expr collations_env with
  | Ok code => EvaluateVM code row
  | Err e => Some (Err e)
  | Panic p => Some (Panic p)
  end.

(** An environment whose convertibility check rejects every pair. *)
Definition rejecting_env : Environment :=
  {| EnsureCollate := fun _ _ => Some "rejected"%string |}.

Definition fresh_compiler : compiler evalInt64 := {| asm_ins := []; c_env := collations_env |}.

Definition collate_null : CollateExpr evalInt64 :=
  {| Inner := null; TypedCollation_ := utf8mb4_bin; CollationEnv := collations_env |}.
Definition collate_abc : CollateExpr evalInt64 :=
  {| Inner := abc; TypedCollation_ := utf8mb4_bin; CollationEnv := collations_env |}.
Definition collate_binary_a : CollateExpr evalInt64 :=
  {| Inner := binary_a; TypedCollation_ := utf8mb4_bin; CollationEnv := collations_env |}.

(** The compile-time descriptors of the slots [_binary 'a'] and [NULL]
    leave. *)
Definition ctype_binary_a : ctype :=
  {| Type_ := VarBinary; Flag := 0; Col := collationBinary (evalOther := evalInt64) |}.

(** An environment whose row is empty and whose check rejects every pair. *)
Definition rejecting_row : ExpressionEnv evalInt64 :=
  {| Row := []; collationEnv := rejecting_env; vm_stack := [] |}.


End MySQL.

(** ** Inner expressions that evaluate to NULL *)

Module MySQLNulls.
Import MySQL.





End MySQLNulls.

(** ** An instance of the parser: a counter *)

Module CountingParser.

(** A parser whose state is a counter, and a [Parse] that fails (it
    returns 1) and leaves the counter raised. *)
Definition counting_Parse (st lex : nat) : nat * exit := (S (st + lex), Returned 1).

Definition after_one_parse : world nat nat :=
  snd (yyParsePooled 0%nat counting_Parse 7%nat init_world).

End CountingParser.


(** ** sqlparser: versions, parsers and statements *)

Module sqlparser.
Import Ascii.

(** An error made by [fmt.Errorf], [errors.New] or the standard library: it
    carries no vtrpc code, and [vterrors.Code] answers UNKNOWN for it. *)
Definition fmt_Errorf (msg : string) : error := vterrors_New Code_UNKNOWN msg.

(** [var ErrEmpty = vterrors.NewErrorf(vtrpcpb.Code_INVALID_ARGUMENT,
    vterrors.EmptyQuery, "Query was empty")] *)
Definition ErrEmpty : error := vterrors_New Code_INVALID_ARGUMENT "Query was empty".

(** [io.EOF] *)
Definition io_EOF : error := fmt_Errorf "EOF".

(** *** ConvertMySQLVersionToCommentVersion *)

(** [c <= '9' && c >= '0'] *)
Definition is_digit (c : ascii) : bool :=
  (N_of_ascii c <=? 57)%N && (48 <=? N_of_ascii c)%N.

(** The error of [strconv.Atoi] on [s], a NumError: its text quotes [s]
    (for the strings of digits the code hands to Atoi, [strconv.Quote] adds
    the two quotes and nothing else). *)
Definition NumError (s why : string) : error :=
  fmt_Errorf ("strconv.Atoi: parsing " ++ String "034"%char s ++ String "034"%char (": " ++ why)).

(** [strconv.Atoi]: an optional sign, then one decimal digit at least, and
    a value that fits an int (64 bits). *)
Definition strconv_Atoi (s : string) : outcome Z :=
  let '(neg, digits) :=
    match s with
    | String c r =>
        if Ascii.eqb c "-" then (true, r)
        else if Ascii.eqb c "+" then (false, r)
        else (false, s)
    | EmptyString => (false, s)
    end in
  match NilZero.uint_of_string digits with
  | None => Err (NumError s "invalid syntax")
  | Some d =>
      let n := if neg then - Z.of_N (N.of_uint d) else Z.of_N (N.of_uint d) in
      if (- 2 ^ 63 <=? n) && (n <? 2 ^ 63) then Ok n
      else Err (NumError s "value out of range")
  end.

(** The verb [%0wd] of [fmt.Sprintf]: the decimal digits of [n], filled with
    zeros on the left up to the width [w], the sign counted in the width. *)
Definition pad_zeros (w : nat) (s : string) : string :=
  string_of_list_ascii (replicate (w - String.length s) "0"%char) ++ s.

Definition fmt_0d (w : nat) (n : Z) : string :=
  if n <? 0
  then "-" ++ pad_zeros (w - 1) (NilZero.string_of_uint (N.to_uint (Z.to_N (- n))))
  else pad_zeros w (NilZero.string_of_uint (N.to_uint (Z.to_N n))).

(** [res[idx] = v] and [res[i]] on a slice: a panic when the index is out of
    range. *)
Definition slice_set (res : list Z) (idx : nat) (v : Z) : outcome (list Z) :=
  if decide (idx < length res)%nat then Ok (<[idx := v]> res) else Panic IndexOutOfRange.

Definition slice_get (res : list Z) (i : nat) : outcome Z :=
  match res !! i with
  | Some v => Ok v
  | None => Panic IndexOutOfRange
  end.

(** The loop [for _, c := range version], on the state [(val, res, idx)]. It
    leaves at the first character that is neither a digit nor a dot, which
    every byte of a multi-byte rune is, so the bytes of the string are read
    one by one. *)
Fixpoint version_loop (version : string) (val : string) (res : list Z) (idx : nat)
  : outcome (string * list Z * nat) :=
  match version with
  | EmptyString => Ok (val, res, idx)
  | String c rest =>
      if is_digit c then version_loop rest (val ++ String c "") res idx
      else if Ascii.eqb c "." then
        v <-- strconv_Atoi val ;;
        res' <-- slice_set res idx v ;;
        let idx' := S idx in
        if (idx' =? 3)%nat then Ok (""%string, res', idx')
        else version_loop rest "" res' idx'
      else Ok (val, res, idx)
  end.

Definition ConvertMySQLVersionToCommentVersion (version : string) : outcome string :=
  st <-- version_loop version "" [0; 0; 0] 0%nat ;;
  let '(val, res, idx) := st in
  st' <-- (if negb (String.eqb val "")
           then v <-- strconv_Atoi val ;;
                res' <-- slice_set res idx v ;;
                Ok (res', S idx)
           else Ok (res, idx)) ;;
  let '(res, idx) := st' in
  if (idx =? 0)%nat
  then Err (vterrors_New Code_INVALID_ARGUMENT
              ("MySQL version not correctly setup - " ++ version ++ "."))
  else
    r0 <-- slice_get res 0 ;;
    r1 <-- slice_get res 1 ;;
    r2 <-- slice_get res 2 ;;
    Ok (fmt_0d 1 r0 ++ fmt_0d 2 r1 ++ fmt_0d 2 r2)%string.

(** *** Parser and its options *)

Record Options : Set := {
  MySQLServerVersion : string;
  TruncateUILen : Z;
  TruncateErrLen : Z
}.

Record Parser : Set := {
  version : string;
  truncateUILen : Z;
  truncateErrLen : Z
}.

(** [New]; the constant [config.DefaultMySQLVersion] is declared outside
    the sources and is a parameter. *)
Definition New (config_DefaultMySQLVersion : string) (opts : Options) : outcome Parser :=
  let v := if String.eqb (MySQLServerVersion opts) "" then config_DefaultMySQLVersion
           else MySQLServerVersion opts in
  convVersion <-- ConvertMySQLVersionToCommentVersion v ;;
  Ok {| version := convVersion;
        truncateUILen := TruncateUILen opts;
        truncateErrLen := TruncateErrLen opts |}.

(** [p.version >= "80000"]: Go compares strings byte by byte. *)
Definition IsMySQL80AndAbove (p : Parser) : bool := String.leb "80000" (version p).

Definition SetTruncateErrLen (p : Parser) (l : Z) : Parser :=
  {| version := version p; truncateUILen := truncateUILen p; truncateErrLen := l |}.

(** *** Strings *)

(** [len(s)], [strings.IndexByte(s, c)] and the slice [s[lo:hi]], which
    panics when the bounds are out of range. *)
Definition len (s : string) : Z := Z.of_nat (String.length s).

Fixpoint strings_IndexByte (s : string) (c : ascii) : Z :=
  match s with
  | EmptyString => -1
  | String a r =>
      if Ascii.eqb a c then 0
      else
        let i := strings_IndexByte r c in
        if i =? -1 then -1 else i + 1
  end.

Definition slice (s : string) (lo hi : Z) : outcome string :=
  if (0 <=? lo) && (lo <=? hi) && (hi <=? len s)
  then Ok (String.substring (Z.to_nat lo) (Z.to_nat (hi - lo)) s)
  else Panic IndexOutOfRange.

(** [x != nil] *)
Definition not_nil {A} (x : option A) : bool :=
  match x with
  | Some _ => true
  | None => false
  end.

(** *** Parse2, Parse, ParseStrictDDL, ParseNext *)

Section Parsing.
(** The bodies of the statement types are declared outside the sources:
    [DBDDL] and [DDL] are the statements that implement DBDDLStatement and
    DDLStatement, [Other] the rest. *)
Context {DBDDL DDL Other BindVars Scanner : Type}.

(** The dynamic type of a [Statement], as far as the code switches on it. *)
Inductive Statement : Type :=
| stmt_DBDDL (x : DBDDL)
| stmt_DDL (x : DDL)
| stmt_CommentOnly              (* a pointer to CommentOnly *)
| stmt_other (x : Other).

(** The fields of a Tokenizer the code reads and writes; [scanner] is the
    rest of the struct. [None] is nil. *)
Record Tokenizer : Type := {
  LastError : option error;
  partialDDL : option Statement;
  ParseTree : option Statement;
  BindVars_ : BindVars;
  multi : bool;
  Pos : Z;
  scanner : Scanner
}.

(** [tokenizer.ParseTree = s] and [tokenizer.multi = m] *)
Definition set_ParseTree (t : Tokenizer) (s : option Statement) : Tokenizer :=
  {| LastError := LastError t; partialDDL := partialDDL t; ParseTree := s;
     BindVars_ := BindVars_ t; multi := multi t; Pos := Pos t; scanner := scanner t |}.

Definition set_multi (t : Tokenizer) (m : bool) : Tokenizer :=
  {| LastError := LastError t; partialDDL := partialDDL t; ParseTree := ParseTree t;
     BindVars_ := BindVars_ t; multi := m; Pos := Pos t; scanner := scanner t |}.

(** The tokenizer and the generated parser, which the sources call and do
    not define. [yyParsePooled_on t] is the run of [yyParsePooled(t)], for a
    parser that returns: the int it returns and the tokenizer as the parse
    leaves it (the pooled parser starts from the zero state, so the run
    depends on the tokenizer alone). *)
Class Lexing : Type := {
  NewStringTokenizer : Parser -> string -> Tokenizer;
  yyParsePooled_on : Tokenizer -> Z * Tokenizer;
  Scan : Tokenizer -> Z * string * Tokenizer;
  cur : Tokenizer -> Z;
  skip : Z -> Tokenizer -> Tokenizer;
  skipBlank : Tokenizer -> Tokenizer;
  reset : Tokenizer -> Tokenizer;
  eofChar : Z;
  DBDDL_SetFullyParsed : DBDDL -> bool -> DBDDL;
  DDL_SetFullyParsed : DDL -> bool -> DDL
}.
Context `{!Lexing}.

(** The type switch of Parse2 on the partial DDL: [x.SetFullyParsed(false)]
    on a DBDDLStatement and on a DDLStatement. *)
Definition SetFullyParsed_false (s : Statement) : Statement :=
  match s with
  | stmt_DBDDL x => stmt_DBDDL (DBDDL_SetFullyParsed x false)
  | stmt_DDL x => stmt_DDL (DDL_SetFullyParsed x false)
  | _ => s
  end.

(** A Go return [(stmt, err)] in which one of the two is the literal nil:
    [return stmt, nil] is [Ok stmt], where [stmt] may be nil, and
    [return nil, err] is [Err] of the error, or [Ok None] when [err] is
    nil. *)
Definition return_nil_and {A} (err : option error) : outcome (option A) :=
  match err with
  | Some e => Err e
  | None => Ok None
  end.

Definition Parse2 (p : Parser) (sql : string) : outcome (option Statement * BindVars) :=
  let tokenizer := NewStringTokenizer p sql in
  let '(r, tokenizer) := yyParsePooled_on tokenizer in
  if negb (r =? 0) || not_nil (LastError tokenizer) then
    match partialDDL tokenizer with
    | Some ddl =>
        let '(typ, val, tokenizer) := Scan tokenizer in
        if negb (typ =? 0)
        then Err (fmt_Errorf ("extra characters encountered after end of DDL: '" ++ val ++ "'"))
        else
          let tokenizer := set_ParseTree tokenizer (Some (SetFullyParsed_false ddl)) in
          Ok (ParseTree tokenizer, BindVars_ tokenizer)
    | None =>
        match LastError tokenizer with
        | None => Panic NilInterfaceCall    (* tokenizer.LastError.Error() *)
        | Some e => Err (vterrors_New Code_INVALID_ARGUMENT (err_msg e))
        end
    end
  else
    match ParseTree tokenizer with
    | None => Err ErrEmpty
    | Some _ => Ok (ParseTree tokenizer, BindVars_ tokenizer)
    end.

Definition Parse (p : Parser) (sql : string) : outcome (option Statement) :=
  r <-- Parse2 p sql ;;
  Ok (fst r).

Definition ParseStrictDDL (p : Parser) (sql : string) : outcome (option Statement) :=
  let tokenizer := NewStringTokenizer p sql in
  let '(r, tokenizer) := yyParsePooled_on tokenizer in
  if negb (r =? 0) then return_nil_and (LastError tokenizer)
  else
    match ParseTree tokenizer with
    | None => Err ErrEmpty
    | Some _ => Ok (ParseTree tokenizer)
    end.

(** [parseNext], and [ParseNext] which it calls for the statement after an
    empty one. Each call runs the parser once, so [fuel] bounds the number
    of statements read; [None] is fuel exhausted. The tokenizer is answered
    as the call leaves it. *)
Fixpoint parseNext (fuel : nat) (tokenizer : Tokenizer) (strict : bool)
  : option (outcome (option Statement) * Tokenizer) :=
  match fuel with
  | O => None
  | S fuel' =>
      let tokenizer :=
        if cur tokenizer =? 59 (* ';' *) then skipBlank (skip 1 tokenizer) else tokenizer in
      if cur tokenizer =? eofChar then Some (Err io_EOF, tokenizer)
      else
        let tokenizer := set_multi (reset tokenizer) true in
        let '(r, tokenizer) := yyParsePooled_on tokenizer in
        if negb (r =? 0) then
          if not_nil (partialDDL tokenizer) && negb strict then
            let tokenizer := set_ParseTree tokenizer (partialDDL tokenizer) in
            Some (Ok (ParseTree tokenizer), tokenizer)
          else Some (return_nil_and (LastError tokenizer), tokenizer)
        else
          match ParseTree tokenizer with
          | None | Some stmt_CommentOnly =>
              parseNext fuel' tokenizer false     (* return ParseNext(tokenizer) *)
          | Some _ => Some (Ok (ParseTree tokenizer), tokenizer)
          end
  end.

Definition ParseNext (fuel : nat) (tokenizer : Tokenizer) :=
  parseNext fuel tokenizer false.

Definition ParseNextStrictDDL (fuel : nat) (tokenizer : Tokenizer) :=
  parseNext fuel tokenizer true.

(** The loop of SplitStatementToPieces, one token per turn; [None] is fuel
    exhausted. *)
Fixpoint pieces_loop (fuel : nat) (blob : string) (tokenizer : Tokenizer)
  (pieces : list string) (stmtBegin : Z) (emptyStatement : bool)
  : option (outcome (list string * Tokenizer)) :=
  match fuel with
  | O => None
  | S fuel' =>
      let '(tkn, _, tokenizer) := Scan tokenizer in
      if tkn =? 59 (* ';' *) then
        match slice blob stmtBegin (Pos tokenizer - 1) with
        | Ok stmt =>
            let pieces := if negb emptyStatement then pieces ++ [stmt] else pieces in
            pieces_loop fuel' blob tokenizer pieces (Pos tokenizer) true
        | Err e => Some (Err e)
        | Panic p => Some (Panic p)
        end
      else if (tkn =? 0) || (tkn =? eofChar) then
        let blobTail := Pos tokenizer - 1 in
        if stmtBegin <? blobTail then
          match slice blob stmtBegin (blobTail + 1) with
          | Ok stmt =>
              Some (Ok (if negb emptyStatement then pieces ++ [stmt] else pieces, tokenizer))
          | Err e => Some (Err e)
          | Panic p => Some (Panic p)
          end
        else Some (Ok (pieces, tokenizer))
      else pieces_loop fuel' blob tokenizer pieces stmtBegin false
  end.

(** SplitStatementToPieces returns its two named results, [pieces] and
    [err], which may both be set. *)
Definition SplitStatementToPieces (fuel : nat) (p : Parser) (blob : string)
  : option (outcome (list string * option error)) :=
  if String.eqb blob "" then Some (Ok ([], None))
  else
    let i := strings_IndexByte blob ";" in
    if i =? -1 then Some (Ok ([blob], None))
    else if i =? len blob - 1 then
      match slice blob 0 (len blob - 1) with
      | Ok stmt => Some (Ok ([stmt], None))
      | Err e => Some (Err e)
      | Panic p => Some (Panic p)
      end
    else
      match pieces_loop fuel blob (NewStringTokenizer p blob) [] 0 true with
      | Some (Ok (pieces, tokenizer)) => Some (Ok (pieces, LastError tokenizer))
      | Some (Err e) => Some (Err e)
      | Some (Panic p) => Some (Panic p)
      | None => None
      end.

End Parsing.
Arguments Statement : clear implicits.
Arguments Tokenizer : clear implicits.
Arguments Lexing : clear implicits.

(** *** Vocabulary of the properties *)

(** The decimal numeral of a natural number, as [strconv.Itoa] prints it. *)
Definition dec (n : N) : string := NilZero.string_of_uint (N.to_uint n).

Fixpoint digits_only (s : string) : bool :=
  match s with
  | EmptyString => true
  | String c r => is_digit c && digits_only r
  end.

(** The first character of [tail], if any, is no digit. *)
Definition no_digit_next (tail : string) : bool :=
  match tail with
  | EmptyString => true
  | String c _ => negb (is_digit c)
  end.

(** [tail] is empty or starts with a character that is neither a digit nor
    a dot. *)
Definition ends_the_version (tail : string) : bool :=
  match tail with
  | EmptyString => true
  | String c _ => negb (is_digit c) && negb (Ascii.eqb c ".")
  end.

Definition is_panic {A} (r : outcome A) : bool :=
  match r with
  | Panic _ => true
  | _ => false
  end.


(** A string that holds no semicolon. *)
Fixpoint no_semicolon (s : string) : bool :=
  match s with
  | EmptyString => true
  | String a r => negb (Ascii.eqb a ";") && no_semicolon r
  end.

End sqlparser.

(** ** tabletserver/schema: the tracker *)

Module schema.
Import sqlparser.

Section MustReload.
Context {DBDDL DDL Other BindVars Scanner TableName : Type}.
Context `{!Lexing DBDDL DDL Other BindVars Scanner}.

(** What the sources call on a DDL statement and on a table name, and do
    not define. *)
Class Tables : Type := {
  GetTable : DDL -> TableName;
  GetToTables : DDL -> list TableName;
  TableName_IsEmpty : TableName -> bool;
  (** [table.Qualifier.NotEmpty()] and [table.Qualifier.String()] *)
  Qualifier_NotEmpty : TableName -> bool;
  Qualifier_String : TableName -> string;
  (** [table.Name.String()] *)
  Name_String : TableName -> string;
  (** [schema.IsOnlineDDLTableName] *)
  IsOnlineDDLTableName : string -> bool
}.
Context `{!Tables}.

(** The loop [for _, table := range tables] of MustReloadSchemaOnDDL; when
    it ends the function falls through to [return false]. *)
Fixpoint tables_loop (tables : list TableName) (dbname : string) : bool :=
  match tables with
  | [] => false
  | table :: rest =>
      if TableName_IsEmpty table then tables_loop rest dbname
      else if Qualifier_NotEmpty table && negb (String.eqb (Qualifier_String table) dbname)
      then tables_loop rest dbname
      else if IsOnlineDDLTableName (Name_String table) then tables_loop rest dbname
      else true
  end.

(** MustReloadSchemaOnDDL answers a bool; it panics when [parser.Parse]
    does. *)
Definition MustReloadSchemaOnDDL (sql dbname : string) (parser : Parser) : outcome bool :=
  match Parse parser sql with
  | Panic p => Panic p
  | Err _ => Ok false
  | Ok (Some (stmt_DBDDL _)) => Ok false
  | Ok (Some (stmt_DDL stmt)) => Ok (tables_loop (GetTable stmt :: GetToTables stmt) dbname)
  | Ok _ => Ok false      (* no case of the switch: nil, or another statement *)
  end.

(** A table for which the loop answers true. *)
Definition tracked (dbname : string) (table : TableName) : bool :=
  negb (TableName_IsEmpty table)
  && (negb (Qualifier_NotEmpty table) || String.eqb (Qualifier_String table) dbname)
  && negb (IsOnlineDDLTableName (Name_String table)).

End MustReload.
Arguments Tables : clear implicits.

(** *** The tracker and the database *)

(** The calls the tracker makes on the engine, on a connection, on the
    clock and on the error counters. *)
Inductive call : Set :=
| call_Connect                 (* tr.engine.cp.Connect(ctx) *)
| call_Close                   (* conn.Close() *)
| call_PrimaryPosition         (* conn.PrimaryPosition() *)
| call_GetConnection           (* tr.engine.GetConnection(ctx) *)
| call_Recycle                 (* conn.Recycle() *)
| call_Exec (query : string)   (* conn.Conn.Exec(ctx, query, 1, false) *)
| call_Reload                  (* tr.engine.Reload(ctx) *)
| call_MarshalMinimalSchema    (* tr.engine.MarshalMinimalSchema() *)
| call_Now                     (* time.Now() *)
| call_ErrorCounters_Add (name : string) (n : Z).

(** A call that was made, and whether it returned with a nil error. *)
Record event : Set := { ev_call : call; ev_ok : bool }.

Definition history : Set := list event.

(** The arguments of a format string. *)
Inductive fmt_arg : Set :=
| arg_s (s : string)
| arg_d (n : Z).

Definition is_ok {A} (r : outcome A) : bool :=
  match r with
  | Ok _ => true
  | _ => false
  end.

(** A tracker function runs against the history of the calls made so far
    and extends it. *)
Definition io (A : Type) : Type := history -> outcome A * history.

Definition io_ret {A} (a : A) : io A := fun h => (Ok a, h).
Definition io_fail {A} (e : error) : io A := fun h => (Err e, h).
Definition io_bind {A B} (m : io A) (k : A -> io B) : io B :=
  fun h =>
    match m h with
    | (Ok a, h') => k a h'
    | (Err e, h') => (Err e, h')
    | (Panic p, h') => (Panic p, h')
    end.

(** [defer d()] before [body]: [d] runs when [body] is over, whether it
    returned or panicked. *)
Definition defer {A} (d : io unit) (body : io A) : io A :=
  fun h => let '(r, h') := body h in (r, snd (d h')).

(** A call to the outside: its answer may depend on everything that
    happened before. *)
Definition ext {A} (c : call) (answer : history -> outcome A) : io A :=
  fun h => let r := answer h in (r, h ++ [{| ev_call := c; ev_ok := is_ok r |}]).

Notation "x <== m ;; k" := (io_bind m (fun x => k))
  (at level 100, m at next level, right associativity).

Inductive VEventType : Set :=
| VEventType_GTID
| VEventType_DDL
| VEventType_OTHER.

(** binlogdatapb.VEvent, by the fields [process] reads. *)
Record VEvent : Set := {
  Type__ : VEventType;
  Gtid : string;
  Statement_ : string;
  Timestamp : Z
}.

(** The connection a tracker function holds: none, one made by [Connect],
    or one taken from the engine's pool by [GetConnection]. *)
Inductive holding : Set :=
| idle
| dba
| pooled.

(** The discipline of the calls: a connection is taken when none is held,
    [PrimaryPosition] and [Close] go to a connection made by [Connect],
    [Exec] and [Recycle] to a pooled one, and the engine, the clock and the
    counters are called with no connection held. [None] when a call breaks
    it. *)
Fixpoint conn_protocol (st : holding) (seg : list event) : option holding :=
  match seg with
  | [] => Some st
  | ev :: rest =>
      match ev_call ev, st with
      | call_Connect, idle => conn_protocol (if ev_ok ev then dba else idle) rest
      | call_GetConnection, idle => conn_protocol (if ev_ok ev then pooled else idle) rest
      | call_PrimaryPosition, dba => conn_protocol dba rest
      | call_Close, dba => conn_protocol idle rest
      | call_Exec _, pooled => conn_protocol pooled rest
      | call_Recycle, pooled => conn_protocol idle rest
      | call_Reload, idle | call_MarshalMinimalSchema, idle | call_Now, idle
      | call_ErrorCounters_Add _ _, idle => conn_protocol idle rest
      | _, _ => None
      end
  end.

(** [m] extends the history by calls that take the connection state from
    [s] to [s'], and by events that satisfy [P]. *)
Definition moves {A} (s s' : holding) (m : io A) : Prop :=
  forall h : history, exists seg : list event,
    snd (m h) = h ++ seg /\ conn_protocol s seg = Some s'.

Definition extends {A} (P : event -> Prop) (m : io A) : Prop :=
  forall h : history, exists seg : list event,
    snd (m h) = h ++ seg /\ Forall P seg.

Definition is_err {A} (r : outcome A) : bool :=
  match r with
  | Err _ => true
  | _ => false
  end.

(** The calls that add to the error counters, and the calls of [Exec] that
    returned a nil error. *)
Definition is_counter_add (ev : event) : bool :=
  match ev_call ev with
  | call_ErrorCounters_Add _ _ => true
  | _ => false
  end.

Definition is_Exec_ok (ev : event) : bool :=
  match ev_call ev with
  | call_Exec _ => ev_ok ev
  | _ => false
  end.

Definition count {A} (f : A -> bool) (l : list A) : nat := length (List.filter f l).

(** The value of the variable [gtid] of [process] after a batch. *)
Definition last_gtid (events : list VEvent) (gtid : string) : string :=
  fold_left (fun g event => match Type__ event with
                            | VEventType_GTID => Gtid event
                            | _ => g
                            end) events gtid.

(** The batches in which no GTID event carries a gtid. *)
Definition no_gtid (events : list VEvent) : bool :=
  forallb (fun event => match Type__ event with
                        | VEventType_GTID => String.eqb (Gtid event) ""
                        | _ => true
                        end) events.

Section TrackerDB.
Context {DBDDL DDL Other BindVars Scanner TableName : Type}.
Context `{!Lexing DBDDL DDL Other BindVars Scanner} `{!Tables DDL TableName}.
Context {Position Row Blob : Type}.

(** The engine, the connections and the helpers of other packages, which
    the sources call and do not define. What a call answers may depend on
    the history. *)
Class Outside : Type := {
  Connect : history -> outcome unit;
  PrimaryPosition : history -> outcome Position;
  GetConnection : history -> outcome unit;
  (** the rows of the result of [Exec] *)
  Exec : string -> history -> outcome (list Row);
  Reload : history -> outcome unit;
  MarshalMinimalSchema : history -> outcome Blob;
  (** [time.Now().UnixNano()] *)
  Now_UnixNano : history -> Z;
  (** [replication.EncodePosition] *)
  EncodePosition : Position -> string;
  (** [sidecar.GetIdentifier()] *)
  sidecar_GetIdentifier : string;
  (** [sqlparser.BuildParsedQuery(in, vars...).Query] *)
  BuildParsedQuery_Query : string -> list fmt_arg -> string;
  (** [sqltypes.EncodeStringSQL] *)
  EncodeStringSQL : string -> string;
  (** [sqltypes.MakeTrusted(sqltypes.VarBinary, blob).EncodeSQLBytes2(&buf)],
      then [buf.String()] *)
  EncodeSQLBytes2 : Blob -> string;
  (** [tr.engine.cp.DBName()] and [tr.env.Environment().Parser()] *)
  DBName : string;
  Environment_Parser : Parser
}.
Context `{!Outside}.

Definition currentPosition : io Position :=
  _ <== ext call_Connect Connect ;;
  defer (ext call_Close (fun _ => Ok ()))
    (ext call_PrimaryPosition PrimaryPosition).

Definition select_query : string :=
  BuildParsedQuery_Query "select id from %s.schema_version limit 1"
    [arg_s sidecar_GetIdentifier].

Definition isSchemaVersionTableEmpty : io bool :=
  _ <== ext call_GetConnection GetConnection ;;
  defer (ext call_Recycle (fun _ => Ok ()))
    (result <== ext (call_Exec select_query) (Exec select_query) ;;
     if (length result =? 0)%nat then io_ret true else io_ret false).

Definition encodeString (in_ : string) : string := EncodeStringSQL in_.

Definition insert_query (gtid ddl : string) (blob : Blob) (timestamp : Z) : string :=
  BuildParsedQuery_Query
    ("insert into %s.schema_version " ++
     "(pos, ddl, schemax, time_updated) " ++
     "values (%s, %s, %s, %d)")
    [arg_s sidecar_GetIdentifier; arg_s (encodeString gtid); arg_s (encodeString ddl);
     arg_s (EncodeSQLBytes2 blob); arg_d timestamp].

Definition saveCurrentSchemaToDb (gtid ddl : string) (timestamp : Z) : io unit :=
  blob <== ext call_MarshalMinimalSchema MarshalMinimalSchema ;;
  _ <== ext call_GetConnection GetConnection ;;
  defer (ext call_Recycle (fun _ => Ok ()))
    (let query := insert_query gtid ddl blob timestamp in
     _ <== ext (call_Exec query) (Exec query) ;;
     io_ret ()).

(** [time.Now().UnixNano() / 1e9] is a division of int64, which truncates. *)
Definition possiblyInsertInitialSchema : io unit :=
  needsWarming <== isSchemaVersionTableEmpty ;;
  if negb needsWarming then io_ret ()
  else
    _ <== ext call_Reload Reload ;;
    now <== ext call_Now (fun h => Ok (Now_UnixNano h)) ;;
    let timestamp := Z.quot now 1000000000 in
    let ddl := ""%string in
    pos <== currentPosition ;;
    let gtid := EncodePosition pos in
    saveCurrentSchemaToDb gtid ddl timestamp.

Definition schemaUpdated (gtid ddl : string) (timestamp : Z) : io unit :=
  if String.eqb gtid "" || String.eqb ddl ""
  then io_fail (fmt_Errorf "got invalid gtid or ddl in schemaUpdated")
  else saveCurrentSchemaToDb gtid ddl timestamp.

(** The function [process] hands to [tr.vs.Stream]: it runs over a batch of
    events, reads and writes the variable [gtid] of [process], which is
    answered as the batch leaves it, and returns a nil error. *)
Fixpoint process_send (events : list VEvent) (gtid : string) : io string :=
  match events with
  | [] => io_ret gtid
  | event :: rest =>
      let gtid :=
        match Type__ event with
        | VEventType_GTID => Gtid event
        | _ => gtid
        end in
      _ <== match Type__ event with
            | VEventType_DDL =>
                fun h =>
                  match MustReloadSchemaOnDDL (Statement_ event) DBName Environment_Parser with
                  | Ok true =>
                      match schemaUpdated gtid (Statement_ event) (Timestamp event) h with
                      | (Err err, h') =>
                          ext (call_ErrorCounters_Add "INTERNAL" 1) (fun _ => Ok ()) h'
                      | (r, h') => (r, h')
                      end
                  | Ok false => (Ok (), h)
                  | Err e => (Err e, h)
                  | Panic p => (Panic p, h)
                  end
            | _ => io_ret ()
            end ;;
      process_send rest gtid
  end.

(** The DDL events of a batch for which the schema must be saved. *)
Definition must_save (event : VEvent) : bool :=
  match Type__ event with
  | VEventType_DDL =>
      match MustReloadSchemaOnDDL (Statement_ event) DBName Environment_Parser with
      | Ok true => true
      | _ => false
      end
  | _ => false
  end.

(** The queries of the initial snapshot: the select, and inserts of an
    empty ddl. *)
Definition initial_query (ev : event) : Prop :=
  forall q, ev_call ev = call_Exec q ->
    q = select_query \/
    exists (pos : Position) (blob : Blob) (now : Z),
      q = insert_query (EncodePosition pos) "" blob (Z.quot now 1000000000).

(** The queries of a batch: inserts of a DDL event of the batch, under a
    gtid, neither of them empty. *)
Definition batch_query (events : list VEvent) (ev : event) : Prop :=
  forall q, ev_call ev = call_Exec q ->
    exists (gtid : string) (evt : VEvent) (blob : Blob),
      gtid <> ""%string /\ Statement_ evt <> ""%string /\
      evt ∈ events /\ Type__ evt = VEventType_DDL /\
      q = insert_query gtid (Statement_ evt) blob (Timestamp evt).

End TrackerDB.
Arguments Outside : clear implicits.

(** *** Open, Close and Enable *)

(** The fields of a Tracker that [Open], [Close] and [Enable] read and
    write. *)
Record Tracker : Set := {
  enabled : bool;
  (** the CancelFunc of the context handed to [process]; [None] is nil *)
  cancel : option nat;
  (** the counter of the WaitGroup [wg] *)
  wg : Z
}.

Definition NewTracker (TrackSchemaVersions : bool) : Tracker :=
  {| enabled := TrackSchemaVersions; cancel := None; wg := 0 |}.

(** A tracker and the goroutines around it. *)
Record system : Set := {
  tr : Tracker;
  (** [tr.mu] is held by a call of [Close] that waits in [tr.wg.Wait()] *)
  closing : bool;
  (** the callers of [Open] past the test of [tr.enabled], before
      [tr.mu.Lock()] *)
  opening : nat;
  (** the goroutines that run [tr.process(ctx)], by their context *)
  procs : list nat;
  (** the contexts whose CancelFunc has been called *)
  cancelled : list nat;
  (** the contexts made so far *)
  contexts : nat
}.

Definition start (TrackSchemaVersions : bool) : system :=
  {| tr := NewTracker TrackSchemaVersions; closing := false; opening := 0;
     procs := []; cancelled := []; contexts := 0 |}.

(** What a goroutine does in one go: the stretches of [Open], [Close] and
    [Enable] between two points where another goroutine can run, and the
    end of a [process]. *)
Inductive action : Set :=
| Open_test                   (* Open: [if !tr.enabled { return }] *)
| Open_locked                 (* Open: from [tr.mu.Lock()] to the deferred Unlock *)
| Close_locked                (* Close: from [tr.mu.Lock()] to [tr.wg.Wait()] *)
| Close_waited                (* Close: [tr.wg.Wait()] returns, then the deferred Unlock *)
| Enable_locked (b : bool)    (* Enable: [tr.mu.Lock(); tr.enabled = enabled; tr.mu.Unlock()] *)
| process_returns (ctx : nat). (* process: it returns, and the deferred [tr.wg.Done()] runs *)

Fixpoint remove_one (c : nat) (l : list nat) : list nat :=
  match l with
  | [] => []
  | x :: r => if (x =? c)%nat then r else x :: remove_one c r
  end.

(** The state after an action; [None] when the action cannot run now (the
    mutex is held, the wait is not over, there is no such goroutine). *)
Definition perform (a : action) (s : system) : option system :=
  match a with
  | Open_test =>
      if enabled (tr s)
      then Some {| tr := tr s; closing := closing s; opening := S (opening s);
                   procs := procs s; cancelled := cancelled s; contexts := contexts s |}
      else Some s
  | Open_locked =>
      match opening s with
      | O => None
      | S n =>
          if closing s then None
          else
            match cancel (tr s) with
            | Some _ =>
                Some {| tr := tr s; closing := false; opening := n;
                        procs := procs s; cancelled := cancelled s; contexts := contexts s |}
            | None =>
                (* ctx, cancel := context.WithCancel(...); tr.cancel = cancel;
                   tr.wg.Add(1); go tr.process(ctx) *)
                let ctx := contexts s in
                Some {| tr := {| enabled := enabled (tr s); cancel := Some ctx;
                                 wg := wg (tr s) + 1 |};
                        closing := false; opening := n;
                        procs := ctx :: procs s; cancelled := cancelled s;
                        contexts := S (contexts s) |}
            end
      end
  | Close_locked =>
      if closing s then None
      else
        match cancel (tr s) with
        | None => Some s
        | Some ctx =>
            (* tr.cancel(); tr.cancel = nil; then tr.wg.Wait() *)
            Some {| tr := {| enabled := enabled (tr s); cancel := None; wg := wg (tr s) |};
                    closing := true; opening := opening s;
                    procs := procs s; cancelled := ctx :: cancelled s;
                    contexts := contexts s |}
        end
  | Close_waited =>
      if closing s && (wg (tr s) =? 0)
      then Some {| tr := tr s; closing := false; opening := opening s;
                   procs := procs s; cancelled := cancelled s; contexts := contexts s |}
      else None
  | Enable_locked b =>
      if closing s then None
      else Some {| tr := {| enabled := b; cancel := cancel (tr s); wg := wg (tr s) |};
                   closing := false; opening := opening s;
                   procs := procs s; cancelled := cancelled s; contexts := contexts s |}
  | process_returns ctx =>
      if bool_decide (ctx ∈ procs s)
      then Some {| tr := {| enabled := enabled (tr s); cancel := cancel (tr s);
                            wg := wg (tr s) - 1 |};
                   closing := closing s; opening := opening s;
                   procs := remove_one ctx (procs s); cancelled := cancelled s;
                   contexts := contexts s |}
      else None
  end.

(** A run of the goroutines: their actions in the order they happen. *)
Fixpoint perform_all (acts : list action) (s : system) : option system :=
  match acts with
  | [] => Some s
  | a :: rest =>
      match perform a s with
      | Some s' => perform_all rest s'
      | None => None
      end
  end.

Definition is_Close_locked (a : action) : bool :=
  match a with
  | Close_locked => true
  | _ => false
  end.

(** What holds of a tracker between two actions. *)
Definition tracker_inv (s : system) : Prop :=
  wg (tr s) = Z.of_nat (length (procs s)) /\
  (length (procs s) <= 1)%nat /\
  (forall c, cancel (tr s) = Some c -> closing s = false) /\
  (forall c c', cancel (tr s) = Some c -> c' ∈ procs s -> c' = c) /\
  (cancel (tr s) = None -> closing s = false -> procs s = []) /\
  (cancel (tr s) = None -> forall c', c' ∈ procs s -> c' ∈ cancelled s).

End schema.

(** ** An instance: a scripted tokenizer and a database that answers *)

Module Scripted.
Import sqlparser schema.

(** A table name: qualifier and name. *)
Definition TableName : Set := (string * string)%type.

(** A DDL statement: the table it is on, and whether it was parsed in
    full. *)
Record DDL : Set := { ddl_table : TableName; ddl_fully_parsed : bool }.

Definition Stmt : Type := Statement unit DDL string.

(** What a run of the parser leaves: the int it returns, LastError,
    partialDDL and ParseTree. The scanner holds the runs to come, one per
    statement of the input. *)
Definition Script : Type := list (Z * option error * option Stmt * option Stmt).
Definition Tok : Type := Tokenizer unit DDL string unit Script.

Definition run_script (t : Tok) : Z * Tok :=
  match scanner t with
  | [] => (1, t)
  | (r, e, pd, pt) :: rest =>
      (r, {| LastError := e; partialDDL := pd; ParseTree := pt;
             BindVars_ := (); multi := multi t; Pos := Pos t; scanner := rest |})
  end.

Definition syntax_error : error := fmt_Errorf "syntax error at position 24".

Definition t1 : DDL := {| ddl_table := (""%string, "t1"%string); ddl_fully_parsed := true |}.

(** The script of an input: [create table t1 (id int] stops in the middle of
    a DDL, the empty input holds no statement, and anything else parses. *)
Definition script (sql : string) : Script :=
  if String.eqb sql "create table t1 (id int"
  then [(1, Some syntax_error, Some (stmt_DDL t1), None)]
  else if String.eqb sql "" then [(0, None, None, None)]
  else [(0, None, None, Some (stmt_other sql))].

#[export] Instance lexing : Lexing unit DDL string unit Script := {|
  NewStringTokenizer := fun _ sql =>
    {| LastError := None; partialDDL := None; ParseTree := None;
       BindVars_ := (); multi := false; Pos := 0; scanner := script sql |};
  yyParsePooled_on := run_script;
  Scan := fun t => (0, ""%string, t);
  cur := fun t => match scanner t with [] => 256 | _ => 0 end;
  skip := fun _ t => t;
  skipBlank := fun t => t;
  reset := fun t => t;
  eofChar := 256;
  DBDDL_SetFullyParsed := fun x _ => x;
  DDL_SetFullyParsed := fun d b => {| ddl_table := ddl_table d; ddl_fully_parsed := b |}
|}.

#[export] Instance tables : Tables DDL TableName := {|
  GetTable := ddl_table;
  GetToTables := fun _ => [];
  TableName_IsEmpty := fun t => String.eqb (snd t) "";
  Qualifier_NotEmpty := fun t => negb (String.eqb (fst t) "");
  Qualifier_String := fst;
  Name_String := snd;
  IsOnlineDDLTableName := fun s => String.prefix "_vt_" s
|}.

Definition parser80 : Parser :=
  {| version := "80030"; truncateUILen := 512; truncateErrLen := 0 |}.

(** A database in which every call succeeds and the table is empty. *)
#[export] Instance outside : Outside string unit string := {|
  Connect := fun _ => Ok ();
  PrimaryPosition := fun _ => Ok "MySQL56/3e11fa47-71ca-11e1-9e33-c80aa9429562:1-5"%string;
  GetConnection := fun _ => Ok ();
  Exec := fun _ _ => Ok [];
  Reload := fun _ => Ok ();
  MarshalMinimalSchema := fun _ => Ok "schema"%string;
  Now_UnixNano := fun _ => 1700000000123456789;
  EncodePosition := fun pos => pos;
  sidecar_GetIdentifier := "_vt";
  BuildParsedQuery_Query := fun format args =>
    (format ++ " <- " ++
     String.concat ", " (map (fun a => match a with
                                       | arg_s s => s
                                       | arg_d n => NilZero.string_of_int (Z.to_int n)
                                       end) args))%string;
  EncodeStringSQL := fun s => ("'" ++ s ++ "'")%string;
  EncodeSQLBytes2 := fun b => ("_binary'" ++ b ++ "'")%string;
  DBName := "commerce";
  Environment_Parser := parser80
|}.

(** A tokenizer on an empty statement followed by a DDL that stops in the
    middle, and the tokenizer after the empty statement. *)
Definition after_empty : Tok :=
  {| LastError := None; partialDDL := None; ParseTree := None;
     BindVars_ := (); multi := true; Pos := 0;
     scanner := [(1, Some syntax_error, Some (stmt_DDL t1), None)] |}.

Definition empty_then_partial : Tok :=
  {| LastError := None; partialDDL := None; ParseTree := None;
     BindVars_ := (); multi := false; Pos := 0;
     scanner := [(0, None, None, None); (1, Some syntax_error, Some (stmt_DDL t1), None)] |}.

Definition after_partial : Tok :=
  {| LastError := Some syntax_error; partialDDL := Some (stmt_DDL t1);
     ParseTree := Some (stmt_DDL t1);
     BindVars_ := (); multi := true; Pos := 0; scanner := [] |}.

(** A DDL event on [t1] that stops in the middle. *)
Definition ddl_event : VEvent :=
  {| Type__ := VEventType_DDL; Gtid := ""; Statement_ := "create table t1 (id int";
     Timestamp := 1700000000 |}.

(** A tracker whose [process] has returned by itself. *)
Definition dead_tracker : system :=
  {| tr := {| enabled := true; cancel := Some 0%nat; wg := 0 |};
     closing := false; opening := 0; procs := []; cancelled := []; contexts := 1 |}.

(** A tracker in which a call of [Close] waits for [process]. *)
Definition closing_tracker : system :=
  {| tr := {| enabled := true; cancel := None; wg := 1 |};
     closing := true; opening := 0; procs := [0%nat]; cancelled := [0%nat];
     contexts := 1 |}.

(** ['abc'] padded for UTF-16. *)
Definition padded_abc : evalBytes :=
  newEvalText [x00; x61; x62; x63]
    {| Collation := 54; Coercibility_ := CoerceCoercible; Repertoire_ := RepertoireASCII |}.

(** The node [_utf16 'abc']. *)
Definition utf16_abc : IntroducerExpr MySQL.evalInt64 :=
  {| IInner := MySQL.abc; ITypedCollation := MySQL.utf16_general_ci;
     ICollationEnv := MySQL.collations_env |}.

End Scripted.


(** ** Vocabulary of the properties *)

(** The unit width of the fixed-width multi-byte charsets. *)
Definition unit_width (cs : Charset) : option nat :=
  match cs with
  | Charset_utf16 | Charset_utf16le | Charset_ucs2 => Some 2%nat
  | Charset_utf32 => Some 4%nat
  | Charset_other _ => None
  end.



(** * Properties *)


Section IntroducerCastFacts.
Context {evalOther : Type} `{!Helpers evalOther}.

Lemma pad_for_zeros (cs : Charset) (w : nat) (bs : list byte) :
  unit_width cs = Some w ->
  exists k : nat,
    pad_for cs bs = replicate k x00 ++ bs /\
    (k < w)%nat /\
    ((k + length bs) mod w = 0)%nat /\
    ((length bs mod w = 0)%nat -> k = 0%nat) /\
    (w = 2%nat -> (length bs mod 2 <> 0)%nat -> k = 1%nat).
Proof.
  intros Hw.
  assert (Hcase : (w = 2%nat /\
                   pad_for cs bs = if negb (Z.of_nat (length bs) mod 2 =? 0) then x00 :: bs else bs) \/
                  (w = 4%nat /\
                   pad_for cs bs =
                     if negb (Z.of_nat (length bs) mod 4 =? 0)
                     then replicate (Z.to_nat (4 - Z.of_nat (length bs) mod 4)) x00 ++ bs
                     else bs)).
  { destruct cs; simpl in Hw; inversion Hw; subst; simpl; auto. }
  destruct Hcase as [[-> ->] | [-> ->]].
  - pose proof (Nat2Z.inj_mod (length bs) 2) as Hm. change (Z.of_nat 2) with 2 in Hm.
    pose proof (Nat.mod_upper_bound (length bs) 2 ltac:(lia)) as Hb.
    destruct (Z.eqb_spec (Z.of_nat (length bs) mod 2) 0) as [E | E]; cbn [negb].
    + exists 0%nat.
      assert (H0 : (length bs mod 2 = 0)%nat) by lia.
      split; [reflexivity |]. repeat split; auto; lia.
    + exists 1%nat.
      assert (H1 : (length bs mod 2 = 1)%nat) by lia.
      split; [reflexivity |]. repeat split; auto; try lia.
      rewrite <- Nat.Div0.add_mod_idemp_r. rewrite H1. reflexivity.
  - pose proof (Nat2Z.inj_mod (length bs) 4) as Hm. change (Z.of_nat 4) with 4 in Hm.
    pose proof (Nat.mod_upper_bound (length bs) 4 ltac:(lia)) as Hb.
    destruct (Z.eqb_spec (Z.of_nat (length bs) mod 4) 0) as [E | E]; cbn [negb].
    + exists 0%nat.
      assert (H0 : (length bs mod 4 = 0)%nat) by lia.
      split; [reflexivity |]. repeat split; auto; lia.
    + exists (Z.to_nat (4 - Z.of_nat (length bs) mod 4)).
      split; [reflexivity |]. repeat split; auto; try lia.
      rewrite <- Nat.Div0.add_mod_idemp_r.
      assert (Hs : (Z.to_nat (4 - Z.of_nat (length bs) mod 4) + length bs mod 4 = 4)%nat) by lia.
      rewrite Hs. reflexivity.
Qed.

Lemma introducerCast_bytes (b : evalBytes) (c : ID) (cs : Charset) :
  c <> CollationBinaryID ->
  colldata_Lookup_Charset c = Some cs ->
  introducerCast (eval_bytes b) c =
    Ok (newEvalText (pad_for cs (bytes b))
          {| Collation := c; Coercibility_ := CoerceCoercible; Repertoire_ := RepertoireASCII |}).
Proof.
  intros Hc Hcs. unfold introducerCast.
  destruct (Z.eqb_spec c CollationBinaryID) as [E | _]; [contradiction |].
  rewrite Hcs. reflexivity.
Qed.

(** A value that is not a byte value never reaches the padding: whatever
    it is, the bytes are those of the nil pointer's [ToRawBytes]. *)
Lemma introducerCast_other (o : evalOther) (c : ID) :
  c <> CollationBinaryID ->
  introducerCast (eval_other o) c =
    (bs <-- evalBytes_ToRawBytes None ;;
     Ok (newEvalText bs
           {| Collation := c; Coercibility_ := CoerceCoercible; Repertoire_ := RepertoireASCII |})).
Proof.
  intros Hc. unfold introducerCast.
  destruct (Z.eqb_spec c CollationBinaryID) as [E | _]; [contradiction |].
  reflexivity.
Qed.

(** C2: an introducer on a raw byte string whose target collation is not
    binary and whose charset has unit width [w] (2 for UTF-16, UTF-16LE and
    UCS2, 4 for UTF-32) answers the bytes with [k] leading zero bytes
    prepended, [k < w] the least count that reaches a multiple of [w]: none
    when the length is a multiple already, exactly one for an odd length in
    the UTF-16 family. *)
Theorem introducerCast_pads_to_unit_width (b : evalBytes) (c : ID) (cs : Charset) (w : nat) :
  c <> CollationBinaryID ->
  colldata_Lookup_Charset c = Some cs ->
  unit_width cs = Some w ->
  exists (out : evalBytes) (k : nat),
    introducerCast (eval_bytes b) c = Ok out /\
    tt out = VarChar /\
    col out = {| Collation := c; Coercibility_ := CoerceCoercible;
                 Repertoire_ := RepertoireASCII |} /\
    bytes out = replicate k x00 ++ bytes b /\
    (k < w)%nat /\
    (length (bytes out) mod w = 0)%nat /\
    ((length (bytes b) mod w = 0)%nat -> bytes out = bytes b) /\
    (w = 2%nat -> (length (bytes b) mod 2 <> 0)%nat -> bytes out = x00 :: bytes b) /\
    (w = 4%nat -> (length (bytes b) mod 4 <> 0)%nat ->
       (length (bytes b) < length (bytes out) < length (bytes b) + 4)%nat).
Proof.
  intros Hc Hcs Hw.
  destruct (pad_for_zeros cs w (bytes b) Hw) as (k & Hpad & Hk & Hmod & Hz & Hone).
  eexists; exists k. split; [apply (introducerCast_bytes b c cs Hc Hcs) |].
  split; [reflexivity |]. split; [reflexivity |].
  simpl. rewrite Hpad.
  repeat split.
  - exact Hk.
  - rewrite length_app, length_replicate. exact Hmod.
  - intros H0. rewrite (Hz H0). reflexivity.
  - intros H2 Hodd. rewrite (Hone H2 Hodd). reflexivity.
  - rewrite length_app, length_replicate.
    destruct k; [| lia].
    simpl in Hmod. subst w. tauto.
  - rewrite length_app, length_replicate. subst w. lia.
Qed.

End IntroducerCastFacts.

(** ** The interpreter on COLLATE and introducer nodes *)

Section InterpreterFacts.
Context {evalOther : Type} `{!Helpers evalOther}.

Lemma has_flag_or (f m : typeFlag) : 0 < m -> has_flag (Z.lor f m) m = true.
Proof.
  intros Hm. unfold has_flag.
  rewrite Z.land_comm, Z.land_lor_distr_r, Z.land_diag, Z.lor_comm.
  destruct (Z.eqb_spec (Z.lor m (Z.land m f)) 0) as [E | E]; [| reflexivity].
  apply Z.lor_eq_0_iff in E. lia.
Qed.

Lemma CollateExpr_eval_bytes (c : CollateExpr evalOther) (env : ExpressionEnv evalOther)
  (v : evalBytes) :
  IR_eval (Inner c) env = Ok (eval_bytes v) ->
  CollateExpr_eval c env =
    match EnsureCollate (collationEnv env) (Collation (col v)) (Collation (TypedCollation_ c)) with
    | Some msg => Err (vterrors_New Code_INVALID_ARGUMENT msg)
    | None => Ok (eval_bytes (or_flag (withCollation v (TypedCollation_ c)) flagExplicitCollation))
    end.
Proof. intros Hin. unfold CollateExpr_eval. rewrite Hin. reflexivity. Qed.

Lemma CollateExpr_eval_other (c : CollateExpr evalOther) (env : ExpressionEnv evalOther)
  (o : evalOther) :
  IR_eval (Inner c) env = Ok (eval_other o) ->
  CollateExpr_eval c env =
    (b <-- evalToVarchar (eval_other o) (Collation (TypedCollation_ c)) true ;;
     Ok (eval_bytes (or_flag b flagExplicitCollation))).
Proof. intros Hin. unfold CollateExpr_eval. rewrite Hin. reflexivity. Qed.

Lemma CollateExpr_eval_nil (c : CollateExpr evalOther)
  (env : ExpressionEnv evalOther) :
  IR_eval (Inner c) env = Ok eval_nil ->
  CollateExpr_eval c env = Ok eval_nil.
Proof.
  intros Hin. unfold CollateExpr_eval. rewrite Hin. reflexivity.
Qed.

(** C9: when the inner expression of a COLLATE node evaluates to NULL, the
    interpreter answers NULL with no error, whatever the environment's
    convertibility check says of the two collations: the check is not
    reached. *)
Theorem CollateExpr_eval_NULL_skips_check (c : CollateExpr evalOther)
  (env : ExpressionEnv evalOther) :
  IR_eval (Inner c) env = Ok eval_nil ->
  CollateExpr_eval c env = Ok eval_nil.
Proof. exact (CollateExpr_eval_nil c env). Qed.


(** On a byte value, a COLLATE to the collation the value already has
    been collated to gives the same value again. *)
Lemma CollateExpr_eval_bytes_again (c : CollateExpr evalOther)
  (env : ExpressionEnv evalOther) (v : evalBytes) :
  IR_eval (Inner c) env = Ok (eval_bytes v) ->
  EnsureCollate (collationEnv env) (Collation (col v)) (Collation (TypedCollation_ c)) = None ->
  EnsureCollate (collationEnv env) (Collation (TypedCollation_ c)) (Collation (TypedCollation_ c)) = None ->
  CollateExpr_eval (collate_again c) env = CollateExpr_eval c env.
Proof.
  intros Hin Hok Hrefl.
  rewrite (CollateExpr_eval_bytes c env v Hin), Hok.
  rewrite (CollateExpr_eval_bytes (collate_again c) env
             (or_flag (withCollation v (TypedCollation_ c)) flagExplicitCollation)).
  - simpl. rewrite Hrefl. reflexivity.
  - simpl. rewrite (CollateExpr_eval_bytes c env v Hin), Hok. reflexivity.
Qed.

(** The second COLLATE re-tags a cast number with the whole typed
    collation, of which the cast saw the id alone: two COLLATE nodes over
    the same number whose collations share the id and differ elsewhere
    cannot both be idempotent, whatever the cast does. *)
Lemma CollateExpr_eval_other_again (c : CollateExpr evalOther)
  (env : ExpressionEnv evalOther) (o : evalOther) (b : evalBytes) :
  IR_eval (Inner c) env = Ok (eval_other o) ->
  CollateExpr_eval c env = Ok (eval_bytes b) ->
  CollateExpr_eval (collate_again c) env = Ok (eval_bytes b) ->
  col b = TypedCollation_ c /\
  exists b0, evalToVarchar (eval_other o) (Collation (TypedCollation_ c)) true = Ok b0 /\
             col b0 = TypedCollation_ c.
Proof.
  intros Hin H1 H2.
  rewrite (CollateExpr_eval_other c env o Hin) in H1.
  destruct (evalToVarchar (eval_other o) _ true) as [b0 | e | p] eqn:Ev; simpl in H1;
    try discriminate.
  injection H1 as <-.
  rewrite (CollateExpr_eval_bytes _ env (or_flag b0 flagExplicitCollation)) in H2.
  2:{ simpl. rewrite (CollateExpr_eval_other c env o Hin), Ev. reflexivity. }
  simpl in H2.
  destruct (EnsureCollate _ _ _); [discriminate |].
  injection H2 as Hf Hc. split; [simpl; congruence |].
  exists b0. split; [reflexivity | congruence].
Qed.

(** Two COLLATE nodes over the same number, to typed collations of one id,
    cannot both be idempotent unless the typed collations are equal. *)
Lemma Collate_of_a_number_idempotent_once (c c' : CollateExpr evalOther)
  (env : ExpressionEnv evalOther) (o : evalOther) (b b' : evalBytes) :
  IR_eval (Inner c) env = Ok (eval_other o) ->
  IR_eval (Inner c') env = Ok (eval_other o) ->
  Collation (TypedCollation_ c) = Collation (TypedCollation_ c') ->
  CollateExpr_eval c env = Ok (eval_bytes b) ->
  CollateExpr_eval (collate_again c) env = Ok (eval_bytes b) ->
  CollateExpr_eval c' env = Ok (eval_bytes b') ->
  CollateExpr_eval (collate_again c') env = Ok (eval_bytes b') ->
  TypedCollation_ c = TypedCollation_ c'.
Proof.
  intros Hin Hin' Hid H1 H2 H1' H2'.
  destruct (CollateExpr_eval_other_again c env o b Hin H1 H2) as (_ & b0 & Hb0 & Hc).
  destruct (CollateExpr_eval_other_again c' env o b' Hin' H1' H2') as (_ & b0' & Hb0' & Hc').
  rewrite Hid, Hb0' in Hb0. injection Hb0 as <-. congruence.
Qed.

(** A successful COLLATE answers a byte value marked ExplicitCollation, or
    NULL. *)
Lemma CollateExpr_eval_explicit (c : CollateExpr evalOther)
  (env : ExpressionEnv evalOther) (r : eval evalOther) :
  CollateExpr_eval c env = Ok r ->
  match r with
  | eval_nil => IR_eval (Inner c) env = Ok eval_nil
  | eval_bytes b => has_flag (flag b) flagExplicitCollation = true
  | eval_other _ => False
  end.
Proof.
  unfold CollateExpr_eval.
  destruct (IR_eval (Inner c) env) as [[| v | o] | e | p]; simpl; try discriminate.
  - intros [= <-]. reflexivity.
  - destruct (EnsureCollate _ _ _); [discriminate |].
    intros [= <-]. simpl. apply has_flag_or. reflexivity.
  - destruct (evalToVarchar _ _ _) as [b | e | p]; simpl; try discriminate.
    intros [= <-]. simpl. apply has_flag_or. reflexivity.
Qed.

(** An introducer to the binary collation answers what [evalToBinary]
    makes of the inner value, marked ExplicitCollation: no charset is
    looked up and nothing is padded. *)
Lemma IntroducerExpr_eval_binary (expr : IntroducerExpr evalOther)
  (env : ExpressionEnv evalOther) (e : eval evalOther) :
  Collation (ITypedCollation expr) = CollationBinaryID ->
  IR_eval (IInner expr) env = Ok e ->
  IntroducerExpr_eval expr env =
    (b <-- evalToBinary e ;; Ok (eval_bytes (or_flag b flagExplicitCollation))).
Proof.
  intros Hc Hin. unfold IntroducerExpr_eval, introducerCast.
  rewrite Hin, Hc, Z.eqb_refl. reflexivity.
Qed.

(** C6 (amended): COLLATE is idempotent on byte values. When the inner
    expression evaluates to a byte value [v] and [v COLLATE c] succeeds with
    result [r], then [v COLLATE c COLLATE c] succeeds with the same [r],
    in an environment whose convertibility check accepts [c] for a value
    collated [c]. *)
Theorem Collate_idempotent_on_byte_values (c : CollateExpr evalOther)
  (env : ExpressionEnv evalOther) (v : evalBytes) (r : eval evalOther) :
  IR_eval (Inner c) env = Ok (eval_bytes v) ->
  EnsureCollate (collationEnv env) (Collation (TypedCollation_ c)) (Collation (TypedCollation_ c)) = None ->
  CollateExpr_eval c env = Ok r ->
  CollateExpr_eval (collate_again c) env = Ok r.
Proof.
  intros Hin Hrefl Hr.
  assert (Hok : EnsureCollate (collationEnv env) (Collation (col v))
                  (Collation (TypedCollation_ c)) = None).
  { rewrite (CollateExpr_eval_bytes c env v Hin) in Hr.
    destruct (EnsureCollate (collationEnv env) (Collation (col v)) _);
      [discriminate | reflexivity]. }
  rewrite <- Hr. exact (CollateExpr_eval_bytes_again c env v Hin Hok Hrefl).
Qed.

End InterpreterFacts.

(** ** The compiler on COLLATE and introducer nodes *)

Section CompilerFacts.
Context {evalOther : Type} `{!Helpers evalOther}.

Lemma alter_placeholder (l : list (instr evalOther)) (i : instr evalOther) (target : Z) :
  alter (fun i => match i with NullCheck1 _ => NullCheck1 target | _ => i end)
    (length l) ((l ++ [NullCheck1 0]) ++ [i]) = l ++ [NullCheck1 target; i].
Proof.
  rewrite <- app_assoc. simpl.
  replace (length l) with (length l + 0)%nat by lia.
  rewrite alter_app_r. reflexivity.
Qed.

(** [CollateExpr_compile], in one equation: the code of the inner
    expression, the null check when the slot is nullable, and the
    instruction, or the failed check. *)
Lemma CollateExpr_compile_eq (expr : CollateExpr evalOther) (c c1 : compiler evalOther)
  (ct : ctype) :
  IR_compile (Inner expr) c = (Ok ct, c1) ->
  CollateExpr_compile expr c =
    match collate_check (c_env c1) ct (TypedCollation_ expr) with
    | Some msg =>
        (Err (vterrors_New Code_INVALID_ARGUMENT msg),
         {| asm_ins := asm_ins c1 ++ null_check ct 0; c_env := c_env c1 |})
    | None =>
        (Ok {| Type_ := VarChar;
               Flag := Z.lor (Flag ct) (Z.lor flagExplicitCollation flagNullable);
               Col := TypedCollation_ expr |},
         {| asm_ins := asm_ins c1 ++ null_check ct 2 ++ [collate_op ct (TypedCollation_ expr)];
            c_env := c_env c1 |})
    end.
Proof.
  intros Hin. unfold CollateExpr_compile, cbind. rewrite Hin.
  unfold compileNullCheck1, null_check, collate_check, collate_op.
  assert (Hlen : forall (l : list (instr evalOther)) a b,
             Z.of_nat (length ((l ++ [a]) ++ [b])) - Z.of_nat (length l) = 2).
  { intros l a b. rewrite !length_app. simpl. lia. }
  destruct (nullable ct) eqn:Hn.
  - destruct (Type_ ct) eqn:Ht; simpl; unfold cret;
      try (rewrite alter_placeholder, Hlen; reflexivity).
    destruct (EnsureCollate _ _ _); simpl; [reflexivity |].
    rewrite alter_placeholder, Hlen. reflexivity.
  - destruct c1 as [ins1 cenv1].
    destruct (Type_ ct) eqn:Ht; simpl; rewrite ?app_nil_r; try reflexivity.
    destruct (EnsureCollate _ _ _); simpl; rewrite ?app_nil_r; reflexivity.
Qed.

(** C10: [CollateExpr_compile] checks convertibility when the inner slot
    is a VarChar, and then only: on a VarChar slot a failed check is the
    node's InvalidArgument error; on any other slot compilation succeeds
    whatever the environment answers; on a VarBinary slot it emits the
    [Collate] instruction (after the null check of a nullable slot) and
    succeeds. *)
Theorem CollateExpr_compile_checks_VarChar_only (expr : CollateExpr evalOther)
  (c c1 : compiler evalOther) (ct : ctype) :
  IR_compile (Inner expr) c = (Ok ct, c1) ->
  (Type_ ct = VarChar ->
   forall msg,
     EnsureCollate (c_env c1) (Collation (Col ct)) (Collation (TypedCollation_ expr)) = Some msg ->
     fst (CollateExpr_compile expr c) = Err (vterrors_New Code_INVALID_ARGUMENT msg)) /\
  (Type_ ct <> VarChar ->
   exists ct', fst (CollateExpr_compile expr c) = Ok ct') /\
  (Type_ ct = VarBinary ->
   CollateExpr_compile expr c =
     (Ok {| Type_ := VarChar;
            Flag := Z.lor (Flag ct) (Z.lor flagExplicitCollation flagNullable);
            Col := TypedCollation_ expr |},
      {| asm_ins := asm_ins c1 ++ null_check ct 2 ++ [Collate (TypedCollation_ expr)];
         c_env := c_env c1 |})).
Proof.
  intros Hin. rewrite (CollateExpr_compile_eq expr c c1 ct Hin).
  unfold collate_check, collate_op.
  split; [| split].
  - intros Ht msg Hmsg. rewrite Ht, Hmsg. reflexivity.
  - intros Ht. destruct (Type_ ct); try contradiction; eexists; reflexivity.
  - intros Ht. rewrite Ht. reflexivity.
Qed.

End CompilerFacts.

(** ** Running compiled code *)

Section VMFacts.
Context {evalOther : Type} `{!Helpers evalOther}.








End VMFacts.

(** ** The nodes on MySQL's collations *)

Module MySQLFacts.
Import MySQL MySQLNulls.

(** C1 (the code at the failing input): [_binary 'a' COLLATE utf8mb4_bin]
    on the empty row. The interpreter fails with InvalidArgument; the
    compiled program runs and answers a value. *)
Theorem collate_binary_interpreter_fails_compiled_succeeds :
  IR_eval (collate binary_a utf8mb4_bin) empty_row =
    Err (vterrors_New Code_INVALID_ARGUMENT
           "COLLATION 'utf8mb4_bin' is not valid for CHARACTER SET 'binary'") /\
  compile_and_run (collate binary_a utf8mb4_bin) empty_row =
    Some (Ok (eval_bytes {| tt := VarBinary; flag := flagExplicitCollation;
                            col := utf8mb4_bin; bytes := [x61] |})).
Proof. split; vm_compute; reflexivity. Qed.

(** C3 (the code at the failing input): compiling
    [_binary 'a' COLLATE utf8mb4_bin] succeeds with a VarChar descriptor,
    although the environment rejects utf8mb4_bin for the binary collation
    of the inner slot. *)
Theorem collate_binary_compiles_without_validation :
  EnsureCollate collations_env CollationBinaryID (Collation utf8mb4_bin) =
    Some "COLLATION 'utf8mb4_bin' is not valid for CHARACTER SET 'binary'"%string /\
  fst (IR_compile (collate binary_a utf8mb4_bin) {| asm_ins := []; c_env := collations_env |}) =
    Ok {| Type_ := VarChar;
          Flag := Z.lor flagExplicitCollation flagNullable;
          Col := utf8mb4_bin |}.
Proof. split; vm_compute; reflexivity. Qed.

(** C8 (the code at the failing input): [introducerCast] of the integer 1
    to utf8mb4_general_ci calls [ToRawBytes] through the nil pointer. *)
Theorem introducerCast_of_a_number_panics :
  introducerCast (eval_other 1 : eval evalInt64) 45 = Panic NilDereference.
Proof. reflexivity. Qed.


(** C6 (counterexample): [1 COLLATE utf8mb4_bin] is coercible, collated
    again it is explicit. *)
Lemma collate_of_a_number_is_not_idempotent :
  IR_eval (collate one utf8mb4_bin) empty_row =
    Ok (eval_bytes {| tt := VarChar; flag := flagExplicitCollation;
                      col := {| Collation := 46; Coercibility_ := CoerceCoercible;
                                Repertoire_ := RepertoireASCII |};
                      bytes := [x31] |}) /\
  IR_eval (collate (collate one utf8mb4_bin) utf8mb4_bin) empty_row =
    Ok (eval_bytes {| tt := VarChar; flag := flagExplicitCollation;
                      col := {| Collation := 46; Coercibility_ := CoerceExplicit;
                                Repertoire_ := RepertoireUnicode |};
                      bytes := [x31] |}).
Proof. split; vm_compute; reflexivity. Qed.

(** C5: an introducer whose target is the binary collation, over a
    value that is not NULL: the result is a VarBinary with the raw bytes of
    the value as they are (for a byte literal, its bytes), under the binary
    collation with coercibility Coercible. *)
Theorem introducer_binary_is_opaque (inner : IR evalInt64) (env : ExpressionEnv evalInt64)
  (v : eval evalInt64) (raw : list byte) (tc : TypedCollation) :
  Collation tc = CollationBinaryID ->
  IR_eval inner env = Ok v ->
  eval_ToRawBytes v = Ok raw ->
  exists b : evalBytes,
    IR_eval (introducer inner tc) env = Ok (eval_bytes b) /\
    bytes b = raw /\
    (forall lit, v = eval_bytes lit -> bytes b = bytes lit) /\
    tt b = VarBinary /\
    col b = collationBinary /\
    Coercibility_ (col b) = CoerceCoercible.
Proof.
  intros Htc Hin Hraw. cbn [introducer IR_eval IntroducerExpr_IR].
  rewrite (IntroducerExpr_eval_binary _ env v) by assumption.
  cbn [evalToBinary helpers]. rewrite Hraw. cbn [obind].
  eexists. split; [reflexivity |]. cbn.
  repeat split; auto.
  intros lit ->. cbn in Hraw. congruence.
Qed.

End MySQLFacts.

(** ** The parser pool *)

Section ParserPoolFacts.
Context {yyParserImpl yyLexer : Type}.
Variable zero : yyParserImpl.
Variable Parse : yyParserImpl -> yyLexer -> yyParserImpl * exit.

Local Abbreviation world := (world yyParserImpl yyLexer).
Local Abbreviation frame := (frame yyLexer).

Lemma init_world_zeroed : pool_zeroed zero (init_world : world) /\ unshared (init_world : world).
Proof.
  unfold pool_zeroed, unshared, init_world; simpl.
  repeat split.
  - intros p Hp. inversion Hp.
  - intros p r Hp. inversion Hp.
  - constructor.
  - intros p Hp. inversion Hp.
Qed.

Lemma frame_parser_middle (c1 c2 : list frame) (f : frame) :
  frame_parser <$> (c1 ++ f :: c2) =
    (frame_parser <$> c1) ++ frame_parser f :: (frame_parser <$> c2).
Proof. rewrite fmap_app, fmap_cons. reflexivity. Qed.

Lemma elem_of_frame_parser (cs : list frame) (f : frame) :
  f ∈ cs -> frame_parser f ∈ frame_parser <$> cs.
Proof. intros Hf. apply list_elem_of_fmap. eauto. Qed.

(** One statement of one call keeps the pool zeroed and the parsers
    unshared. *)
Lemma step_keeps_zeroed (w w' : world) :
  step zero Parse w w' ->
  pool_zeroed zero w /\ unshared w ->
  pool_zeroed zero w' /\ unshared w'.
Proof.
  intros Hstep [[Hpool Hput] [Hnd Halloc]].
  unfold pool_zeroed, unshared.
  destruct Hstep as
    [w l1 p l2 yylex Hp | w yylex | w c1 p yylex c2 st st' r Hc Hst HP
    | w c1 p r c2 Hc | w c1 p r c2 Hc | w l1 p l2 Hp]; simpl.
  - (* Get, a pooled parser *)
    rewrite Hp in Hpool, Hnd.
    assert (Hperm : (l1 ++ l2) ++ p :: (frame_parser <$> calls w)
                    ≡ₚ (l1 ++ p :: l2) ++ (frame_parser <$> calls w)).
    { rewrite <- !app_assoc. apply Permutation_app_head.
      simpl. symmetry. apply Permutation_middle. }
    repeat split.
    + intros q Hq. apply Hpool. set_solver.
    + intros q r Hq. apply (Hput q r). set_solver.
    + rewrite Hperm. exact Hnd.
    + intros q Hq. apply elem_of_cons in Hq as [-> | Hq]; [| auto].
      rewrite Hpool by set_solver. eauto.
  - (* Get, a new parser *)
    set (p := fresh (dom (heap w))).
    assert (Hfresh : heap w !! p = None).
    { apply not_elem_of_dom. apply is_fresh. }
    repeat split.
    + intros q Hq. destruct (decide (q = p)) as [-> | Hne].
      * rewrite (Hpool p Hq) in Hfresh. discriminate.
      * rewrite lookup_insert_ne by congruence. auto.
    + intros q r Hq. apply elem_of_cons in Hq as [Heq | Hq]; [discriminate |].
      destruct (decide (q = p)) as [-> | Hne].
      * rewrite (Hput p r Hq) in Hfresh. discriminate.
      * rewrite lookup_insert_ne by congruence. eauto.
    + rewrite <- Permutation_middle. apply NoDup_cons. split; [| exact Hnd].
      intros Hin. apply elem_of_app in Hin as [Hin | Hin].
      * rewrite (Hpool p Hin) in Hfresh. discriminate.
      * destruct (Halloc p Hin) as [x Hx]. rewrite Hx in Hfresh. discriminate.
    + intros q Hq. apply elem_of_cons in Hq as [-> | Hq].
      * rewrite lookup_insert_eq. eauto.
      * destruct (decide (q = p)) as [-> | Hne];
          [rewrite lookup_insert_eq | rewrite lookup_insert_ne by congruence]; eauto.
  - (* parser.Parse(yylex) *)
    rewrite Hc, frame_parser_middle in Hnd, Halloc. rewrite Hc in Hput.
    rewrite frame_parser_middle. simpl in *.
    apply NoDup_app in Hnd as (Hnd1 & Hdisj & Hnd2).
    apply NoDup_app in Hnd2 as (Hc1 & Hc1p & Hc2).
    apply NoDup_cons in Hc2 as (Hpc2 & Hc2).
    repeat split.
    + intros q Hq. rewrite lookup_insert_ne; [auto |].
      intros <-. apply (Hdisj p Hq). set_solver.
    + intros q r' Hq.
      assert (Hq' : Putting q r' ∈ c1 \/ Putting q r' ∈ c2).
      { apply elem_of_app in Hq as [Hq | Hq]; [auto |].
        apply elem_of_cons in Hq as [Heq | Hq]; [discriminate | auto]. }
      rewrite lookup_insert_ne; [apply (Hput q r'); set_solver |].
      intros <-. destruct Hq' as [Hq' | Hq'].
      * apply (Hc1p p); [apply (elem_of_frame_parser _ _ Hq') | set_solver].
      * apply Hpc2. apply (elem_of_frame_parser _ _ Hq').
    + apply NoDup_app. repeat split; auto.
      apply NoDup_app. repeat split; auto. apply NoDup_cons. auto.
    + intros q Hq. destruct (decide (q = p)) as [-> | Hne];
        [rewrite lookup_insert_eq | rewrite lookup_insert_ne by congruence]; eauto.
  - (* *parser = zeroParser *)
    rewrite Hc, frame_parser_middle in Hnd, Halloc. rewrite Hc in Hput.
    rewrite frame_parser_middle. simpl in *.
    repeat split.
    + intros q Hq. destruct (decide (q = p)) as [-> | Hne];
        [rewrite lookup_insert_eq | rewrite lookup_insert_ne by congruence]; auto.
    + intros q r' Hq. destruct (decide (q = p)) as [-> | Hne];
        [rewrite lookup_insert_eq; reflexivity | rewrite lookup_insert_ne by congruence].
      apply (Hput q r').
      apply elem_of_app in Hq as [Hq | Hq]; [set_solver |].
      apply elem_of_cons in Hq as [Heq | Hq]; [| set_solver].
      injection Heq as -> ->. contradiction.
    + exact Hnd.
    + intros q Hq. destruct (decide (q = p)) as [-> | Hne];
        [rewrite lookup_insert_eq | rewrite lookup_insert_ne by congruence]; eauto.
  - (* parserPool.Put(parser) *)
    rewrite Hc, frame_parser_middle in Hnd, Halloc. rewrite Hc in Hput.
    simpl in *.
    assert (Hperm : (p :: parserPool w) ++ (frame_parser <$> (c1 ++ c2))
                    ≡ₚ parserPool w ++ (frame_parser <$> c1) ++ p :: (frame_parser <$> c2)).
    { rewrite fmap_app. simpl. rewrite <- !Permutation_middle. reflexivity. }
    repeat split.
    + intros q Hq. apply elem_of_cons in Hq as [-> | Hq]; [| auto].
      apply (Hput p r). set_solver.
    + intros q r' Hq. apply (Hput q r'). set_solver.
    + rewrite Hperm. exact Hnd.
    + intros q Hq. apply Halloc. rewrite fmap_app in Hq. set_solver.
  - (* the pool drops a parser *)
    rewrite Hp in Hpool, Hnd.
    repeat split.
    + intros q Hq. apply Hpool. set_solver.
    + exact Hput.
    + rewrite <- app_assoc in Hnd |- *. simpl in Hnd.
      rewrite <- Permutation_middle in Hnd. apply NoDup_cons in Hnd as [_ Hnd].
      exact Hnd.
    + exact Halloc.
Qed.

Lemma reachable_zeroed (w : world) :
  reachable zero Parse w -> pool_zeroed zero w /\ unshared w.
Proof.
  induction 1 as [| w w' _ IH Hstep].
  - exact init_world_zeroed.
  - exact (step_keeps_zeroed w w' Hstep IH).
Qed.

(** What [parserPool.Get()] answers points to an all-zero parser. *)
Lemma parserPool_Get_zero (w w1 : world) (p : loc) :
  pool_zeroed zero w ->
  parserPool_Get zero w = (p, w1) ->
  heap w1 !! p = Some (zeroParser zero).
Proof.
  intros [Hpool _] Hget. unfold parserPool_Get in Hget.
  destruct (parserPool w) as [| q rest] eqn:Hp.
  - unfold parserPool_New in Hget. injection Hget as <- <-. simpl.
    apply lookup_insert_eq.
  - injection Hget as <- <-. simpl. apply Hpool. left.
Qed.

(** A call of [yyParsePooled] by one caller is one interleaving: Get,
    Parse, the reset, Put. *)
Lemma yyParsePooled_reachable (yylex : yyLexer) (w w' : world) (r : exit) :
  reachable zero Parse w ->
  yyParsePooled zero Parse yylex w = (r, w') ->
  reachable zero Parse w'.
Proof.
  intros Hw Hrun. unfold yyParsePooled in Hrun.
  destruct (parserPool_Get zero w) as [p w1] eqn:Hget.
  pose proof (parserPool_Get_zero w w1 p (proj1 (reachable_zeroed w Hw)) Hget) as Hz.
  rewrite Hz in Hrun.
  destruct (Parse (zeroParser zero) yylex) as [st' r'] eqn:HP.
  injection Hrun as <- <-.
  set (wa := set_calls (Parsing p yylex :: calls w) w1).
  assert (Ha : reachable zero Parse wa).
  { apply (reachable_step _ _ w); [exact Hw |].
    unfold parserPool_Get in Hget. destruct (parserPool w) as [| q rest] eqn:Hp.
    - pose proof (step_Get_new zero Parse w yylex) as Hs.
      rewrite Hget in Hs. exact Hs.
    - injection Hget as <- <-.
      exact (step_Get_pooled zero Parse w [] q rest yylex Hp). }
  assert (Hcalls1 : calls w1 = calls w).
  { unfold parserPool_Get, parserPool_New in Hget.
    destruct (parserPool w); injection Hget as <- <-; reflexivity. }
  set (wb := set_calls ([] ++ Deferred p r' :: calls w) (store p st' wa)).
  assert (Hb : reachable zero Parse wb).
  { apply (reachable_step _ _ wa); [exact Ha |].
    apply (step_Parse zero Parse wa [] p yylex (calls w) (zeroParser zero) st' r');
      [reflexivity | exact Hz | exact HP]. }
  set (wc := set_calls ([] ++ Putting p r' :: calls w) (store p (zeroParser zero) wb)).
  assert (Hc : reachable zero Parse wc).
  { apply (reachable_step _ _ wb); [exact Hb |].
    apply (step_reset zero Parse wb [] p r' (calls w)). reflexivity. }
  assert (Hd : reachable zero Parse (set_calls ([] ++ calls w) (parserPool_Put p wc))).
  { apply (reachable_step _ _ wc); [exact Hc |].
    apply (step_Put zero Parse wc [] p r' (calls w)). reflexivity. }
  unfold wc, wb, wa, set_calls, parserPool_Put, store in Hd. simpl in Hd.
  unfold parserPool_Put, store. simpl. rewrite Hcalls1. exact Hd.
Qed.

(** C7: in every state the pool can reach, whatever the callers and
    however their calls interleave, every pooled parser is in the all-zero
    state, every parser a deferred function is about to put back has been
    reset, however [Parse] ended (a return value or a panic), and a parser
    acquired by [Get] is in the all-zero state. *)
Theorem pooled_parsers_are_zeroed (w : world) :
  reachable zero Parse w ->
  (forall p, p ∈ parserPool w -> heap w !! p = Some (zeroParser zero)) /\
  (forall p r, Putting p r ∈ calls w -> heap w !! p = Some (zeroParser zero)) /\
  (forall p w1, parserPool_Get zero w = (p, w1) -> heap w1 !! p = Some (zeroParser zero)) /\
  (forall yylex r w',
     yyParsePooled zero Parse yylex w = (r, w') ->
     forall p, p ∈ parserPool w' -> heap w' !! p = Some (zeroParser zero)).
Proof.
  intros Hw. pose proof (reachable_zeroed w Hw) as [[Hpool Hput] Hun].
  repeat split; auto.
  - intros p w1 Hget. apply (parserPool_Get_zero w w1 p); [split; auto | exact Hget].
  - intros yylex r w' Hrun.
    exact (proj1 (proj1 (reachable_zeroed w' (yyParsePooled_reachable yylex w w' r Hw Hrun)))).
Qed.

End ParserPoolFacts.

(** ** Introducers, once more *)

Section IntroducerFacts.
Context {evalOther : Type} `{!Helpers evalOther}.

(** Padded bytes need no padding. *)

Lemma pad_for_idempotent (cs : Charset) (bs : list byte) :
  pad_for cs (pad_for cs bs) = pad_for cs bs.
Proof.
  destruct (unit_width cs) as [w |] eqn:Hw.
  - destruct (pad_for_zeros cs w bs Hw) as (k & Hpad & _ & Hmod & _ & _).
    destruct (pad_for_zeros cs w (pad_for cs bs) Hw) as (k' & Hpad' & _ & _ & Hz & _).
    rewrite Hpad'. rewrite Hz; [reflexivity |].
    rewrite Hpad, length_app, length_replicate. exact Hmod.
  - destruct cs; try discriminate. reflexivity.
Qed.

(** X1: [introducerCast] to a collation that is not binary is idempotent on
    byte values: cast again to the same collation, its result comes back as
    it is, with no further zero byte in front. *)
Theorem introducerCast_idempotent (b out : evalBytes) (c : ID) :
  c <> CollationBinaryID ->
  introducerCast (eval_bytes b) c = Ok out ->
  introducerCast (eval_bytes out) c = Ok out.
Proof.
  intros Hc Hout. unfold introducerCast in *.
  destruct (Z.eqb_spec c CollationBinaryID) as [E | _]; [contradiction |].
  destruct (colldata_Lookup_Charset c) as [cs |]; [| discriminate].
  simpl in *. injection Hout as <-. simpl.
  rewrite pad_for_idempotent. reflexivity.
Qed.

(** X2: an introducer node whose collation is not binary, on the two
    paths. The value the interpreter answers and the descriptor [compile]
    returns agree on the type (VarChar) and on the flags (ExplicitCollation
    alone: the descriptor is never nullable), but the value always carries
    the coercibility Coercible and the repertoire ASCII that [introducerCast]
    sets, and the descriptor the typed collation of the node: the two
    collations are equal exactly when the node's is Coercible and ASCII. *)
Theorem IntroducerExpr_value_and_descriptor (expr : IntroducerExpr evalOther)
  (env : ExpressionEnv evalOther) (v : eval evalOther)
  (c c' : compiler evalOther) (ct : ctype) :
  Collation (ITypedCollation expr) <> CollationBinaryID ->
  IntroducerExpr_eval expr env = Ok v ->
  IntroducerExpr_compile expr c = (Ok ct, c') ->
  exists b : evalBytes,
    v = eval_bytes b /\
    tt b = Type_ ct /\ Type_ ct = VarChar /\
    flag b = Flag ct /\ Flag ct = flagExplicitCollation /\
    nullable ct = false /\
    col b = {| Collation := Collation (ITypedCollation expr);
               Coercibility_ := CoerceCoercible; Repertoire_ := RepertoireASCII |} /\
    Col ct = ITypedCollation expr /\
    (col b = Col ct <->
     Coercibility_ (ITypedCollation expr) = CoerceCoercible /\
     Repertoire_ (ITypedCollation expr) = RepertoireASCII).
Proof.
  intros Hc Hv Hct.
  unfold IntroducerExpr_eval, introducerCast in Hv.
  destruct (IR_eval (IInner expr) env) as [e | e | p]; simpl in Hv; try discriminate.
  destruct (Z.eqb_spec (Collation (ITypedCollation expr)) CollationBinaryID) as [E | _];
    [contradiction |].
  unfold IntroducerExpr_compile, cbind in Hct.
  destruct (IR_compile (IInner expr) c) as [[ct0 | e0 | p0] c1]; try discriminate.
  destruct (Z.eqb_spec (Collation (ITypedCollation expr)) CollationBinaryID) as [E | _];
    [contradiction |].
  simpl in Hct. injection Hct as <- <-.
  match type of Hv with
  | obind (obind ?m _) _ = _ => destruct m as [bs | e1 | p1]
  end; simpl in Hv; try discriminate.
  injection Hv as <-. eexists. split; [reflexivity |]. simpl.
  do 7 (split; [reflexivity |]).
  destruct (ITypedCollation expr) as [i co re]; simpl.
  split; [intros [= <- <-]; auto | intros [-> ->]; reflexivity].
Qed.

End IntroducerFacts.

(** ** The pool is transparent *)

Section PoolTransparency.
Context {yyParserImpl yyLexer : Type}.
Variable zero : yyParserImpl.
Variable Parse : yyParserImpl -> yyLexer -> yyParserImpl * exit.

(** X3: in every state the pool can reach, [yyParsePooled] returns what
    [Parse] returns on a parser in the zero state: the result of a parse does
    not depend on the parses that used the pooled parser before. *)
Theorem yyParsePooled_ignores_history (yylex : yyLexer) (w : world yyParserImpl yyLexer) :
  reachable zero Parse w ->
  fst (yyParsePooled zero Parse yylex w) = snd (Parse (zeroParser zero) yylex).
Proof.
  intros Hw. unfold yyParsePooled.
  destruct (parserPool_Get zero w) as [p w1] eqn:Hget.
  rewrite (parserPool_Get_zero zero w w1 p (proj1 (reachable_zeroed zero Parse w Hw)) Hget).
  destruct (Parse (zeroParser zero) yylex) as [st' r]. reflexivity.
Qed.

End PoolTransparency.


(** ** The MySQL version of a parser *)

Section VersionFacts.
Import Ascii sqlparser.
Local Arguments String.append !s1 s2 : simpl nomatch.

Lemma is_digit_cases (c : ascii) :
  is_digit c = true ->
  c = "0"%char \/ c = "1"%char \/ c = "2"%char \/ c = "3"%char \/ c = "4"%char \/
  c = "5"%char \/ c = "6"%char \/ c = "7"%char \/ c = "8"%char \/ c = "9"%char.
Proof.
  destruct c as [[] [] [] [] [] [] [] []]; vm_compute; intros H; try discriminate; tauto.
Qed.

Lemma digits_only_app (s t : string) :
  digits_only (s ++ t) = digits_only s && digits_only t.
Proof.
  induction s as [| c s IH]; simpl; [reflexivity |].
  rewrite IH, andb_assoc. reflexivity.
Qed.

Lemma digits_only_NilEmpty (d : Decimal.uint) : digits_only (NilEmpty.string_of_uint d) = true.
Proof. induction d; simpl; auto. Qed.

Lemma digits_only_dec (n : N) : digits_only (dec n) = true.
Proof.
  unfold dec, NilZero.string_of_uint.
  destruct (N.to_uint n); try reflexivity; apply (digits_only_NilEmpty (_ _)).
Qed.

Lemma dec_nonempty (n : N) : exists c r, dec n = String c r /\ is_digit c = true.
Proof.
  pose proof (digits_only_dec n) as H.
  unfold dec, NilZero.string_of_uint in *.
  destruct (N.to_uint n); simpl in *; eauto.
Qed.

Lemma uint_of_digits (s : string) :
  digits_only s = true -> exists d, NilEmpty.uint_of_string s = Some d.
Proof.
  induction s as [| c s IH]; simpl; [eauto |].
  intros H. apply andb_prop in H as [Hc Hs].
  destruct (IH Hs) as [d ->].
  destruct (is_digit_cases c Hc) as [-> | [-> | [-> | [-> | [-> | [-> | [-> | [-> | [-> | ->]]]]]]]]];
    simpl; eauto.
Qed.

Lemma digit_no_sign (c : ascii) :
  is_digit c = true -> Ascii.eqb c "-" = false /\ Ascii.eqb c "+" = false.
Proof.
  intros H.
  destruct (is_digit_cases c H) as [-> | [-> | [-> | [-> | [-> | [-> | [-> | [-> | [-> | ->]]]]]]]]];
    split; reflexivity.
Qed.

(** [Atoi] on the digits the loop collects: a value that is not negative,
    or an error without a code; never a panic. *)
Lemma Atoi_digits (s : string) :
  digits_only s = true ->
  match strconv_Atoi s with
  | Ok n => 0 <= n
  | Err e => err_code e = Code_UNKNOWN
  | Panic _ => False
  end.
Proof.
  intros H. unfold strconv_Atoi.
  destruct s as [| c r]; [reflexivity |].
  pose proof H as H'. simpl in H'. apply andb_prop in H' as [Hc Hr].
  destruct (digit_no_sign c Hc) as [-> ->].
  destruct (uint_of_digits (String c r) H) as [d Hd].
  change (NilZero.uint_of_string (String c r)) with (NilEmpty.uint_of_string (String c r)).
  rewrite Hd.
  destruct (_ && _); simpl; [lia | reflexivity].
Qed.

Lemma N_to_uint_nonnil (n : N) : N.to_uint n <> Decimal.Nil.
Proof.
  intros H. pose proof (Unsigned.of_to n) as E. rewrite H in E. simpl in E. subst n.
  discriminate H.
Qed.

Lemma Atoi_dec (n : N) : (Z.of_N n < 2 ^ 63) -> strconv_Atoi (dec n) = Ok (Z.of_N n).
Proof.
  intros Hn. unfold strconv_Atoi.
  destruct (dec_nonempty n) as (c & r & E & Hc). rewrite E.
  destruct (digit_no_sign c Hc) as [-> ->]. rewrite <- E.
  unfold dec. rewrite NilZero.usu by apply N_to_uint_nonnil.
  rewrite Unsigned.of_to.
  destruct (Z.leb_spec (- 2 ^ 63) (Z.of_N n)); [| lia].
  destruct (Z.ltb_spec (Z.of_N n) (2 ^ 63)); [reflexivity | lia].
Qed.

Lemma version_loop_inv (v : string) :
  forall (val : string) (res : list Z) (idx : nat),
    digits_only val = true ->
    length res = 3%nat ->
    Forall (Z.le 0) res ->
    (idx < 3)%nat ->
    match version_loop v val res idx with
    | Ok (val', res', idx') =>
        digits_only val' = true /\
        length res' = 3%nat /\
        Forall (Z.le 0) res' /\
        ((idx' < 3)%nat \/ (idx' = 3%nat /\ val' = ""%string)) /\
        ((val <> ""%string \/ 0 < idx)%nat -> (val' <> ""%string \/ 0 < idx')%nat)
    | Err e => err_code e = Code_UNKNOWN
    | Panic _ => False
    end.
Proof.
  induction v as [| c rest IH]; intros val res idx Hval Hlen Hpos Hidx; simpl.
  - repeat split; auto.
  - destruct (is_digit c) eqn:Hc.
    + specialize (IH (val ++ String c "")%string res idx).
      rewrite digits_only_app in IH. simpl in IH. rewrite Hval, Hc in IH.
      specialize (IH eq_refl Hlen Hpos Hidx).
      destruct (version_loop rest _ res idx) as [[[val' res'] idx'] | e | p]; auto.
      destruct IH as (? & ? & ? & ? & Hne). repeat split; auto.
      intros _. apply Hne. left. destruct val; discriminate.
    + destruct (Ascii.eqb c ".").
      * pose proof (Atoi_digits val Hval) as Ha.
        destruct (strconv_Atoi val) as [n | e | p]; simpl; auto.
        unfold slice_set. destruct (decide (idx < length res)%nat) as [_ | Hno]; [| lia].
        simpl.
        assert (Hpos' : Forall (Z.le 0) (<[idx := n]> res)).
        { apply Forall_insert; auto. }
        destruct (Nat.eqb_spec idx 2) as [E | E].
        -- rewrite length_insert. repeat split; auto. intros _. right. lia.
        -- specialize (IH ""%string (<[idx := n]> res) (S idx) eq_refl).
           rewrite length_insert in IH. specialize (IH Hlen Hpos' ltac:(lia)).
           destruct (version_loop rest _ _ _) as [[[val' res'] idx'] | e | p]; auto.
           destruct IH as (? & ? & ? & ? & Hne). repeat split; auto.
           intros _. apply Hne. right. lia.
      * repeat split; auto.
Qed.

Lemma string_length_app (s t : string) :
  String.length (s ++ t) = (String.length s + String.length t)%nat.
Proof. induction s; simpl; auto. Qed.

Lemma zeros_digits (k : nat) :
  digits_only (string_of_list_ascii (replicate k "0"%char)) = true /\
  String.length (string_of_list_ascii (replicate k "0"%char)) = k.
Proof. induction k as [| k [IH1 IH2]]; simpl; auto. Qed.

Lemma fmt_0d_digits (w : nat) (n : Z) :
  0 <= n ->
  digits_only (fmt_0d w n) = true /\
  (w <= String.length (fmt_0d w n))%nat /\
  (1 <= String.length (fmt_0d w n))%nat.
Proof.
  intros Hn. unfold fmt_0d. destruct (Z.ltb_spec n 0) as [Hneg | _]; [lia |].
  unfold pad_zeros. fold (dec (Z.to_N n)).
  destruct (zeros_digits (w - String.length (dec (Z.to_N n)))) as [Hd Hl].
  rewrite digits_only_app, Hd, digits_only_dec, string_length_app, Hl.
  destruct (dec_nonempty (Z.to_N n)) as (c & r & -> & _). simpl. repeat split; lia.
Qed.

(** What [ConvertMySQLVersionToCommentVersion] answers, by the state the
    loop leaves. *)
Lemma Convert_after_loop (v : string) :
  match version_loop v "" [0; 0; 0] 0%nat with
  | Ok (val, res, idx) =>
      match ConvertMySQLVersionToCommentVersion v with
      | Ok s =>
          (val <> ""%string \/ 0 < idx)%nat /\
          digits_only s = true /\ (5 <= String.length s)%nat
      | Err e =>
          err_code e = Code_UNKNOWN \/
          (err_code e = Code_INVALID_ARGUMENT /\ val = ""%string /\ idx = 0%nat)
      | Panic _ => False
      end
  | Err e => ConvertMySQLVersionToCommentVersion v = Err e /\ err_code e = Code_UNKNOWN
  | Panic _ => False
  end.
Proof.
  pose proof (version_loop_inv v "" [0; 0; 0] 0%nat eq_refl eq_refl
                ltac:(repeat constructor; lia) ltac:(lia)) as Hinv.
  unfold ConvertMySQLVersionToCommentVersion.
  destruct (version_loop v "" [0; 0; 0] 0%nat) as [[[val res] idx] | e | p]; simpl; auto.
  destruct Hinv as (Hval & Hlen & Hpos & Hidx & _).
  destruct res as [| r0 [| r1 [| r2 [| ? ?]]]]; try discriminate Hlen.
  assert (Hfmt : forall a b c : Z, 0 <= a -> 0 <= b -> 0 <= c ->
            digits_only (fmt_0d 1 a ++ fmt_0d 2 b ++ fmt_0d 2 c) = true /\
            (5 <= String.length (fmt_0d 1 a ++ fmt_0d 2 b ++ fmt_0d 2 c))%nat).
  { intros a b c Ha Hb Hc.
    destruct (fmt_0d_digits 1 a Ha) as (Da & La & _).
    destruct (fmt_0d_digits 2 b Hb) as (Db & Lb & _).
    destruct (fmt_0d_digits 2 c Hc) as (Dc & Lc & _).
    rewrite !digits_only_app, !string_length_app, Da, Db, Dc. split; [reflexivity | lia]. }
  destruct (String.eqb_spec val "") as [-> | Hne]; simpl.
  - destruct idx as [| idx]; simpl; [right; auto |].
    inversion Hpos as [| ? ? H0 Hpos1]; subst. inversion Hpos1 as [| ? ? H1 Hpos2]; subst.
    inversion Hpos2 as [| ? ? H2 _]; subst.
    split; [right; lia | apply Hfmt; auto].
  - pose proof (Atoi_digits val Hval) as Ha.
    destruct (strconv_Atoi val) as [n | e | p]; simpl; auto.
    destruct Hidx as [Hidx | [_ Habs]]; [| contradiction].
    unfold slice_set. simpl length.
    destruct (decide (idx < 3)%nat) as [_ | Hno]; [| lia]. simpl.
    assert (Hpos' : Forall (Z.le 0) (<[idx := n]> [r0; r1; r2])) by (apply Forall_insert; auto).
    destruct idx as [| [| [| idx]]]; simpl in *; try lia;
      inversion Hpos' as [| ? ? H0 Hpos1]; subst; inversion Hpos1 as [| ? ? H1 Hpos2]; subst;
      inversion Hpos2 as [| ? ? H2 _]; subst;
      (split; [left; exact Hne | apply Hfmt; auto]).
Qed.

(** X4: ConvertMySQLVersionToCommentVersion never panics: whatever the
    string, no index into the three slots of [res] is out of range. *)
Theorem ConvertMySQLVersion_never_panics (version : string) :
  is_panic (ConvertMySQLVersionToCommentVersion version) = false.
Proof.
  pose proof (Convert_after_loop version) as H.
  destruct (version_loop version "" [0; 0; 0] 0%nat) as [[[val res] idx] | e | p].
  - destruct (ConvertMySQLVersionToCommentVersion version); simpl; auto. contradiction.
  - destruct H as [-> _]. reflexivity.
  - contradiction.
Qed.

Lemma Convert_answers_digits (version s : string) :
  ConvertMySQLVersionToCommentVersion version = Ok s ->
  digits_only s = true /\ (5 <= String.length s)%nat.
Proof.
  intros Hs. pose proof (Convert_after_loop version) as H.
  destruct (version_loop version "" [0; 0; 0] 0%nat) as [[[val res] idx] | e | p].
  - rewrite Hs in H. tauto.
  - destruct H as [H _]. congruence.
  - contradiction.
Qed.

(** X5: a successful conversion answers five decimal digits at least, and
    nothing but digits. *)
Theorem ConvertMySQLVersion_digits (version s : string) :
  ConvertMySQLVersionToCommentVersion version = Ok s ->
  digits_only s = true /\ (5 <= String.length s)%nat.
Proof.
  intros Hs. pose proof (Convert_after_loop version) as H.
  destruct (version_loop version "" [0; 0; 0] 0%nat) as [[[val res] idx] | e | p].
  - rewrite Hs in H. tauto.
  - destruct H as [H _]. congruence.
  - contradiction.
Qed.

(** X6: ConvertMySQLVersionToCommentVersion fails with InvalidArgument, and
    the message that quotes the version, on a string that is empty or starts
    with a character that is neither a digit nor a dot; on any other string
    a failure is an error of [strconv.Atoi] (an empty or an oversized
    component), which carries no code. *)
Theorem ConvertMySQLVersion_InvalidArgument (version : string) :
  (ends_the_version version = true ->
   ConvertMySQLVersionToCommentVersion version =
     Err (vterrors_New Code_INVALID_ARGUMENT
            ("MySQL version not correctly setup - " ++ version ++ "."))) /\
  (ends_the_version version = false ->
   match ConvertMySQLVersionToCommentVersion version with
   | Err e => err_code e = Code_UNKNOWN
   | _ => True
   end).
Proof.
  split.
  - intros H. unfold ConvertMySQLVersionToCommentVersion.
    destruct version as [| c rest]; [reflexivity |].
    simpl in H. apply andb_prop in H as [Hd Hdot].
    apply negb_true_iff in Hd, Hdot. simpl. rewrite Hd, Hdot. reflexivity.
  - intros H. pose proof (Convert_after_loop version) as Hc.
    destruct version as [| c rest]; [discriminate |].
    simpl in H.
    destruct (is_digit c) eqn:Hd.
    + assert (Hloop : version_loop (String c rest) "" [0; 0; 0] 0%nat =
                      version_loop rest (String c "") [0; 0; 0] 0%nat)
        by (simpl; rewrite Hd; reflexivity).
      rewrite Hloop in Hc.
      pose proof (version_loop_inv rest (String c "") [0; 0; 0] 0%nat) as Hinv.
      simpl in Hinv. rewrite Hd in Hinv.
      specialize (Hinv eq_refl eq_refl ltac:(repeat constructor; lia) ltac:(lia)).
      destruct (version_loop rest (String c "") [0; 0; 0] 0%nat) as [[[val res] idx] | e | p].
      * destruct (ConvertMySQLVersionToCommentVersion (String c rest)); auto.
        destruct Hc as [Hc | (_ & -> & ->)]; [exact Hc |].
        destruct Hinv as (_ & _ & _ & _ & Hne).
        destruct Hne as [Hne | Hne]; [left; discriminate | contradiction | lia].
      * destruct Hc as [-> Hc]. exact Hc.
      * contradiction.
    + destruct (Ascii.eqb c ".") eqn:Hdot; [| discriminate].
      assert (Hloop : version_loop (String c rest) "" [0; 0; 0] 0%nat =
                      Err (NumError "" "invalid syntax"))
        by (simpl; rewrite Hd, Hdot; reflexivity).
      rewrite Hloop in Hc. destruct Hc as [-> Hc]. exact Hc.
Qed.

Lemma string_app_assoc (s t u : string) : ((s ++ t) ++ u = s ++ (t ++ u))%string.
Proof.
  induction s as [| a s IH]; [reflexivity |].
  change (String a ((s ++ t) ++ u) = String a (s ++ (t ++ u)))%string.
  rewrite IH. reflexivity.
Qed.

Lemma string_app_nil_r (s : string) : (s ++ "" = s)%string.
Proof.
  induction s as [| a s IH]; [reflexivity |].
  change (String a (s ++ "") = String a s)%string. rewrite IH. reflexivity.
Qed.

Lemma version_loop_digits (s : string) :
  forall (rest val : string) (res : list Z) (idx : nat),
    digits_only s = true ->
    version_loop (s ++ rest) val res idx = version_loop rest (val ++ s) res idx.
Proof.
  induction s as [| c s IH]; intros rest val res idx H; simpl.
  - rewrite string_app_nil_r. reflexivity.
  - simpl in H. apply andb_prop in H as [Hc Hs]. rewrite Hc.
    rewrite IH by exact Hs. rewrite string_app_assoc. reflexivity.
Qed.

Lemma version_loop_ends (tail val : string) (res : list Z) (idx : nat) :
  ends_the_version tail = true ->
  version_loop tail val res idx = Ok (val, res, idx).
Proof.
  destruct tail as [| c r]; simpl; [reflexivity |].
  intros H. apply andb_prop in H as [Hd Hdot].
  apply negb_true_iff in Hd, Hdot. rewrite Hd, Hdot. reflexivity.
Qed.

Lemma pad_zeros_1_dec (n : N) : pad_zeros 1 (dec n) = dec n.
Proof.
  unfold pad_zeros. destruct (dec_nonempty n) as (c & r & -> & _). reflexivity.
Qed.

Lemma fmt_0d_N (w : nat) (n : N) : fmt_0d w (Z.of_N n) = pad_zeros w (dec n).
Proof.
  unfold fmt_0d. destruct (Z.ltb_spec (Z.of_N n) 0) as [H | _]; [lia |].
  rewrite N2Z.id. reflexivity.
Qed.

Lemma dec_not_empty (n : N) : String.eqb (dec n) "" = false.
Proof. destruct (dec_nonempty n) as (c & r & -> & _). reflexivity. Qed.

(** X7: the versions [a], [a.b] and [a.b.c], whatever follows them: the
    conversion answers the numeral of [a], then [b] and [c] on two digits at
    least, a missing [b] or [c] counting as zero. What follows [a] or [a.b]
    must not continue the version (it is empty or starts with a character
    that is neither a digit nor a dot); after [a.b.c] anything that starts
    with no digit is ignored, a fourth component included. *)
Theorem ConvertMySQLVersion_components (a b c : N) (tail more : string) :
  Z.of_N a < 2 ^ 63 -> Z.of_N b < 2 ^ 63 -> Z.of_N c < 2 ^ 63 ->
  ends_the_version tail = true ->
  no_digit_next more = true ->
  ConvertMySQLVersionToCommentVersion (dec a ++ tail) =
    Ok (dec a ++ "00" ++ "00")%string /\
  ConvertMySQLVersionToCommentVersion (dec a ++ "." ++ dec b ++ tail) =
    Ok (dec a ++ pad_zeros 2 (dec b) ++ "00")%string /\
  ConvertMySQLVersionToCommentVersion (dec a ++ "." ++ dec b ++ "." ++ dec c ++ more) =
    Ok (dec a ++ pad_zeros 2 (dec b) ++ pad_zeros 2 (dec c))%string.
Proof.
  intros Ha Hb Hc Htail Hmore.
  assert (Hstep : forall (n : N) (rest : string) (res : list Z) (idx : nat),
             Z.of_N n < 2 ^ 63 -> (idx < 2)%nat -> length res = 3%nat ->
             version_loop (dec n ++ "." ++ rest) "" res idx =
               version_loop rest "" (<[idx := Z.of_N n]> res) (S idx)).
  { intros n rest res idx Hn Hidx Hlen.
    rewrite version_loop_digits by apply digits_only_dec. simpl.
    rewrite (Atoi_dec n Hn). simpl. unfold slice_set.
    destruct (decide (idx < length res)%nat) as [_ | Hno]; [| lia]. simpl.
    destruct (Nat.eqb_spec idx 2); [lia | reflexivity]. }
  assert (Hlast : forall (n : N) (res : list Z) (idx : nat) (t : string),
             ends_the_version t = true ->
             version_loop (dec n ++ t) "" res idx = Ok (dec n, res, idx)).
  { intros n res idx t Ht.
    rewrite version_loop_digits by apply digits_only_dec. simpl.
    apply version_loop_ends. exact Ht. }
  unfold ConvertMySQLVersionToCommentVersion.
  split; [| split].
  - rewrite Hlast by exact Htail. simpl. rewrite dec_not_empty. simpl.
    rewrite (Atoi_dec a Ha). simpl.
    rewrite fmt_0d_N, pad_zeros_1_dec. reflexivity.
  - rewrite Hstep by (auto; lia). rewrite Hlast by exact Htail. simpl.
    rewrite dec_not_empty. simpl. rewrite (Atoi_dec b Hb). simpl.
    rewrite !fmt_0d_N, pad_zeros_1_dec. reflexivity.
  - rewrite Hstep by (auto; lia). rewrite Hstep by (auto; lia).
    rewrite version_loop_digits by apply digits_only_dec.
    assert (Hend : forall st,
               (st = (dec c, [Z.of_N a; Z.of_N b; 0], 2%nat) \/
                st = (""%string, [Z.of_N a; Z.of_N b; Z.of_N c], 3%nat)) ->
               (let '(val, res, idx) := st in
                st' <-- (if negb (String.eqb val "")
                         then v <-- strconv_Atoi val ;;
                              res' <-- slice_set res idx v ;; Ok (res', S idx)
                         else Ok (res, idx)) ;;
                let '(res, idx) := st' in
                if (idx =? 0)%nat
                then Err (vterrors_New Code_INVALID_ARGUMENT
                            ("MySQL version not correctly setup - " ++
                             (dec a ++ "." ++ dec b ++ "." ++ dec c ++ more) ++ "."))
                else
                  r0 <-- slice_get res 0 ;; r1 <-- slice_get res 1 ;; r2 <-- slice_get res 2 ;;
                  Ok (fmt_0d 1 r0 ++ fmt_0d 2 r1 ++ fmt_0d 2 r2)%string) =
               Ok (dec a ++ pad_zeros 2 (dec b) ++ pad_zeros 2 (dec c))%string).
    { intros st [-> | ->].
      - rewrite dec_not_empty. simpl. rewrite (Atoi_dec c Hc). simpl.
        rewrite !fmt_0d_N, pad_zeros_1_dec. reflexivity.
      - simpl. rewrite !fmt_0d_N, pad_zeros_1_dec. reflexivity. }
    simpl. destruct more as [| m more']; simpl.
    + apply (Hend (dec c, [Z.of_N a; Z.of_N b; 0], 2%nat)). left. reflexivity.
    + simpl in Hmore. apply negb_true_iff in Hmore. rewrite Hmore.
      destruct (Ascii.eqb m ".").
      * rewrite (Atoi_dec c Hc). simpl.
        apply (Hend (""%string, [Z.of_N a; Z.of_N b; Z.of_N c], 3%nat)). right. reflexivity.
      * apply (Hend (dec c, [Z.of_N a; Z.of_N b; 0], 2%nat)). left. reflexivity.
Qed.

Lemma compare_zeros (k : nat) :
  forall t : string,
    digits_only t = true -> (k <= String.length t)%nat ->
    String.compare (string_of_list_ascii (replicate k "0"%char)) t <> Gt.
Proof.
  induction k as [| k IH]; intros t Hd Hl.
  - destruct t; discriminate.
  - destruct t as [| c t]; simpl in Hl; [lia |].
    simpl in Hd. apply andb_prop in Hd as [Hc Hd].
    specialize (IH t Hd ltac:(lia)).
    destruct (is_digit_cases c Hc) as
      [-> | [-> | [-> | [-> | [-> | [-> | [-> | [-> | [-> | ->]]]]]]]]];
      simpl; try discriminate. exact IH.
Qed.

Lemma leb_80000 (s : string) :
  digits_only s = true -> (5 <= String.length s)%nat ->
  String.leb "80000" s =
    match s with
    | String c _ => Ascii.eqb c "8" || Ascii.eqb c "9"
    | EmptyString => false
    end.
Proof.
  intros Hd Hl.
  destruct s as [| c r]; simpl in Hl; [lia |].
  simpl in Hd. apply andb_prop in Hd as [Hc Hd].
  pose proof (compare_zeros 4 r Hd ltac:(lia)) as Hz.
  destruct (is_digit_cases c Hc) as
    [-> | [-> | [-> | [-> | [-> | [-> | [-> | [-> | [-> | ->]]]]]]]]];
    try reflexivity.
  unfold String.leb.
  change (String.compare "80000" (String "8" r)) with (String.compare "0000" r).
  change (string_of_list_ascii (replicate 4 "0"%char)) with "0000"%string in Hz.
  destruct (String.compare "0000" r); try reflexivity. contradiction.
Qed.

(** X8: [IsMySQL80AndAbove] compares strings, not numbers: for a parser made
    by [New] it holds exactly when the comment version starts with the digit 8
    or 9, whatever digits follow. *)
Theorem IsMySQL80AndAbove_first_digit (default : string) (opts : Options) (p : Parser) :
  New default opts = Ok p ->
  IsMySQL80AndAbove p =
    match sqlparser.version p with
    | String c _ => Ascii.eqb c "8" || Ascii.eqb c "9"
    | EmptyString => false
    end.
Proof.
  unfold New. intros H.
  destruct (ConvertMySQLVersionToCommentVersion _) as [s | e | pn] eqn:E; try discriminate.
  simpl in H. injection H as <-. simpl.
  destruct (Convert_answers_digits _ s E) as [Hd Hl].
  apply leb_80000; assumption.
Qed.

End VersionFacts.


(** ** Parse, ParseStrictDDL, ParseNextStrictDDL, SplitStatementToPieces *)

Section ParsingFacts.
Import Ascii sqlparser.
Context {DBDDL DDL Other BindVars Scanner : Type}.
Context `{!Lexing DBDDL DDL Other BindVars Scanner}.

Local Abbreviation Statement := (Statement DBDDL DDL Other).
Local Abbreviation Tokenizer := (Tokenizer DBDDL DDL Other BindVars Scanner).


(** X10: [ParseNextStrictDDL] is strict for one statement: when the
    statement it reads is empty or a comment, it answers what [ParseNext]
    answers on the rest of the input, which accepts a partially parsed
    DDL. *)
Theorem ParseNextStrictDDL_strict_for_one_statement (fuel : nat) (t t1 : Tokenizer) :
  let t0 := if cur t =? 59 then skipBlank (skip 1 t) else t in
  (cur t0 =? eofChar) = false ->
  yyParsePooled_on (set_multi (reset t0) true) = (0, t1) ->
  ParseTree t1 = None \/ ParseTree t1 = Some stmt_CommentOnly ->
  ParseNextStrictDDL (S fuel) t = ParseNext fuel t1.
Proof.
  intros t0 Hcur Hrun Htree. unfold ParseNextStrictDDL, ParseNext.
  simpl. fold t0. rewrite Hcur, Hrun. simpl.
  destruct Htree as [-> | ->]; reflexivity.
Qed.

Local Arguments String.append !s1 s2 : simpl nomatch.

Lemma IndexByte_range (s : string) (c : ascii) :
  strings_IndexByte s c = -1 \/ 0 <= strings_IndexByte s c < len s.
Proof.
  unfold len. induction s as [| a r IH]; simpl; [left; reflexivity |].
  destruct (Ascii.eqb a c); [right; lia |].
  destruct (Z.eqb_spec (strings_IndexByte r c) (-1)) as [E | E]; [left; reflexivity |].
  right. lia.
Qed.

Lemma IndexByte_no_semicolon (s : string) :
  no_semicolon s = true -> strings_IndexByte s ";" = -1.
Proof.
  induction s as [| a r IH]; simpl; [reflexivity |].
  intros H. apply andb_prop in H as [Ha Hr]. apply negb_true_iff in Ha.
  rewrite Ha, (IH Hr). reflexivity.
Qed.

Lemma IndexByte_last (s : string) :
  no_semicolon s = true -> strings_IndexByte (s ++ ";") ";" = len s.
Proof.
  unfold len. induction s as [| a r IH]; simpl; [reflexivity |].
  intros H. apply andb_prop in H as [Ha Hr]. apply negb_true_iff in Ha.
  rewrite Ha, (IH Hr).
  destruct (Z.eqb_spec (Z.of_nat (String.length r)) (-1)) as [E | _]; lia.
Qed.

Lemma substring_prefix (s t : string) :
  String.substring 0 (String.length s) (s ++ t) = s.
Proof.
  induction s as [| a r IH]; simpl.
  - destruct t; reflexivity.
  - rewrite IH. reflexivity.
Qed.

(** X11: on a blob that holds no semicolon, and on one whose only
    semicolon is its last byte, SplitStatementToPieces answers without a
    tokenizer, whatever the fuel: no piece for the empty blob, otherwise one
    piece, the blob without the final semicolon, be it empty or blank. *)
Theorem SplitStatementToPieces_one_statement (fuel : nat) (p : Parser) (s : string) :
  no_semicolon s = true ->
  SplitStatementToPieces fuel p s =
    Some (Ok (if String.eqb s "" then [] else [s], None)) /\
  SplitStatementToPieces fuel p (s ++ ";") = Some (Ok ([s], None)).
Proof.
  intros Hs. split.
  - unfold SplitStatementToPieces.
    destruct (String.eqb s ""); [reflexivity |].
    rewrite (IndexByte_no_semicolon s Hs). reflexivity.
  - unfold SplitStatementToPieces.
    assert (Hne : String.eqb (s ++ ";") "" = false) by (destruct s; reflexivity).
    rewrite Hne, (IndexByte_last s Hs).
    assert (Hlen : len (s ++ ";") = len s + 1).
    { unfold len. rewrite string_length_app. simpl. lia. }
    rewrite Hlen.
    destruct (Z.eqb_spec (len s) (-1)) as [E | _]; [unfold len in E; lia |].
    replace (len s + 1 - 1) with (len s) by lia. rewrite Z.eqb_refl.
    unfold slice. rewrite Hlen.
    assert (H0 : (0 <=? 0) && (0 <=? len s) && (len s <=? len s + 1) = true).
    { unfold len. repeat (apply andb_true_intro; split); apply Z.leb_le; lia. }
    rewrite H0. replace (Z.to_nat (len s - 0)) with (String.length s) by (unfold len; lia).
    change (Z.to_nat 0) with 0%nat. rewrite substring_prefix. reflexivity.
Qed.

End ParsingFacts.

(** ** MustReloadSchemaOnDDL *)

Section MustReloadFacts.
Import sqlparser schema.
Context {DBDDL DDL Other BindVars Scanner TableName : Type}.
Context `{!Lexing DBDDL DDL Other BindVars Scanner} `{!Tables DDL TableName}.

Lemma tables_loop_existsb (dbname : string) (tables : list TableName) :
  tables_loop tables dbname = existsb (tracked dbname) tables.
Proof.
  induction tables as [| t rest IH]; [reflexivity |].
  simpl. unfold tracked at 1.
  destruct (TableName_IsEmpty t); simpl; [exact IH |].
  destruct (Qualifier_NotEmpty t); simpl.
  - destruct (String.eqb (Qualifier_String t) dbname); simpl; [| exact IH].
    destruct (IsOnlineDDLTableName (Name_String t)); simpl; [exact IH | reflexivity].
  - destruct (IsOnlineDDLTableName (Name_String t)); simpl; [exact IH | reflexivity].
Qed.

(** X12: MustReloadSchemaOnDDL answers true exactly when the text parses to
    a DDL statement one of whose tables (the table, or a table it is renamed
    to) is not empty, is unqualified or qualified by [dbname], and is not
    the table of an online DDL. *)
Theorem MustReloadSchemaOnDDL_true_iff (sql dbname : string) (parser : Parser) :
  MustReloadSchemaOnDDL sql dbname parser = Ok true <->
  exists (stmt : DDL) (table : TableName),
    Parse parser sql = Ok (Some (stmt_DDL stmt)) /\
    table ∈ GetTable stmt :: GetToTables stmt /\
    TableName_IsEmpty table = false /\
    (Qualifier_NotEmpty table = true -> Qualifier_String table = dbname) /\
    IsOnlineDDLTableName (Name_String table) = false.
Proof.
  unfold MustReloadSchemaOnDDL. split.
  - destruct (Parse parser sql) as [[[x | stmt | | x] |] | e | p]; try discriminate.
    intros H0.
    assert (H : tables_loop (GetTable stmt :: GetToTables stmt) dbname = true)
      by congruence.
    clear H0. rewrite tables_loop_existsb in H.
    apply existsb_exists in H as (table & Hin & Ht).
    exists stmt, table. split; [reflexivity |].
    unfold tracked in Ht.
    apply andb_prop in Ht as [Ht Honline]. apply andb_prop in Ht as [Hempty Hq].
    apply negb_true_iff in Hempty, Honline.
    repeat split; auto.
    + apply list_elem_of_In. exact Hin.
    + intros Hne. rewrite Hne in Hq. simpl in Hq. apply String.eqb_eq. exact Hq.
  - intros (stmt & table & -> & Hin & Hempty & Hq & Honline).
    f_equal. rewrite tables_loop_existsb. apply existsb_exists.
    exists table. split; [apply list_elem_of_In; exact Hin |].
    unfold tracked. rewrite Hempty, Honline. simpl.
    destruct (Qualifier_NotEmpty table); simpl; [| reflexivity].
    rewrite (Hq eq_refl). rewrite String.eqb_refl. reflexivity.
Qed.

(** X13: a DDL that stops in a syntax error still reloads the schema. When
    the parser fails on a text and leaves a partial DDL on a tracked table,
    with nothing after it, [ParseStrictDDL] fails with the error of the
    tokenizer, [Parse] answers the statement marked as not fully parsed, and
    MustReloadSchemaOnDDL answers true, as long as [SetFullyParsed] leaves
    the table of the statement alone. *)
Theorem partial_DDL_must_reload (sql dbname : string) (parser : Parser)
  (r : Z) (t : Tokenizer DBDDL DDL Other BindVars Scanner) (d : DDL) (e : error) :
  yyParsePooled_on (NewStringTokenizer parser sql) = (r, t) ->
  r <> 0 ->
  LastError t = Some e ->
  partialDDL t = Some (stmt_DDL d) ->
  fst (fst (Scan t)) = 0 ->
  GetTable (DDL_SetFullyParsed d false) = GetTable d ->
  tracked dbname (GetTable d) = true ->
  ParseStrictDDL parser sql = Err e /\
  Parse parser sql = Ok (Some (stmt_DDL (DDL_SetFullyParsed d false))) /\
  MustReloadSchemaOnDDL sql dbname parser = Ok true.
Proof.
  intros Hrun Hr He Hd Hscan Htab Htracked.
  assert (HP : Parse parser sql = Ok (Some (stmt_DDL (DDL_SetFullyParsed d false)))).
  { unfold Parse, Parse2. rewrite Hrun.
    destruct (Z.eqb_spec r 0) as [E | _]; [contradiction |]. simpl.
    rewrite Hd. destruct (Scan t) as [[typ val] t']. simpl in Hscan. subst typ.
    reflexivity. }
  repeat split.
  - unfold ParseStrictDDL. rewrite Hrun.
    destruct (Z.eqb_spec r 0) as [E | _]; [contradiction |]. simpl.
    rewrite He. reflexivity.
  - exact HP.
  - unfold MustReloadSchemaOnDDL. rewrite HP. simpl. rewrite Htab.
    unfold tracked in Htracked.
    apply andb_prop in Htracked as [Ht Honline]. apply andb_prop in Ht as [Hempty Hq].
    apply negb_true_iff in Hempty, Honline. rewrite Hempty.
    destruct (Qualifier_NotEmpty (GetTable d)); simpl in *.
    + rewrite Hq. simpl. rewrite Honline. reflexivity.
    + rewrite Honline. reflexivity.
Qed.

End MustReloadFacts.


(** ** The tracker and the database *)

Section TrackerFacts.
Import sqlparser schema.
Context {DBDDL DDL Other BindVars Scanner TableName : Type}.
Context `{!Lexing DBDDL DDL Other BindVars Scanner} `{!Tables DDL TableName}.
Context {Position Row Blob : Type}.
Context `{!Outside Position Row Blob}.

Lemma conn_protocol_app (s : holding) (seg1 seg2 : list event) :
  conn_protocol s (seg1 ++ seg2) =
    match conn_protocol s seg1 with
    | Some s1 => conn_protocol s1 seg2
    | None => None
    end.
Proof.
  revert s. induction seg1 as [| ev rest IH]; intros s; [reflexivity |].
  simpl. destruct (ev_call ev), s; try reflexivity; apply IH.
Qed.

Lemma moves_ret {A} (s : holding) (a : A) : moves s s (io_ret a).
Proof. intros h. exists []. rewrite app_nil_r. split; reflexivity. Qed.

Lemma moves_fail {A} (s : holding) (e : error) : moves s s (io_fail (A := A) e).
Proof. intros h. exists []. rewrite app_nil_r. split; reflexivity. Qed.

Lemma moves_bind {A B} (s : holding) (m : io A) (k : A -> io B) :
  moves s s m -> (forall a, moves s s (k a)) -> moves s s (io_bind m k).
Proof.
  intros Hm Hk h. unfold io_bind.
  destruct (Hm h) as (seg1 & H1 & P1).
  destruct (m h) as [[a | e | p] h1]; simpl in H1; subst h1.
  - destruct (Hk a (h ++ seg1)) as (seg2 & H2 & P2).
    exists (seg1 ++ seg2). rewrite H2, app_assoc. split; [reflexivity |].
    rewrite conn_protocol_app, P1. exact P2.
  - exists seg1. split; [reflexivity | exact P1].
  - exists seg1. split; [reflexivity | exact P1].
Qed.

Lemma moves_ext {A} (s s' : holding) (c : call) (answer : history -> outcome A) :
  (forall ok, conn_protocol s [{| ev_call := c; ev_ok := ok |}] = Some s') ->
  moves s s' (ext c answer).
Proof.
  intros Hc h. unfold ext. eexists. split; [reflexivity | apply Hc].
Qed.

Lemma moves_defer {A} (s s1 s' : holding) (d : io unit) (body : io A) :
  moves s s1 body -> moves s1 s' d -> moves s s' (defer d body).
Proof.
  intros Hb Hd h. unfold defer.
  destruct (Hb h) as (seg1 & H1 & P1).
  destruct (body h) as [r h1]; simpl in H1; subst h1.
  destruct (Hd (h ++ seg1)) as (seg2 & H2 & P2).
  exists (seg1 ++ seg2). simpl. rewrite H2, app_assoc. split; [reflexivity |].
  rewrite conn_protocol_app, P1. exact P2.
Qed.

(** A block that takes a connection, defers its release and works on
    it. *)
Lemma moves_with {A B} (s1 : holding) (take release : call)
  (answer : history -> outcome A) (body : io B) :
  (conn_protocol idle [{| ev_call := take; ev_ok := true |}] = Some s1) ->
  (conn_protocol idle [{| ev_call := take; ev_ok := false |}] = Some idle) ->
  (forall ok, conn_protocol s1 [{| ev_call := release; ev_ok := ok |}] = Some idle) ->
  moves s1 s1 body ->
  moves idle idle
    (io_bind (ext take answer) (fun _ => defer (ext release (fun _ => Ok ())) body)).
Proof.
  intros Htake Hfail Hrel Hbody h. unfold io_bind, ext at 1.
  destruct (answer h) as [a | e | p] eqn:Ha; simpl.
  - destruct (moves_defer s1 s1 idle (ext release (fun _ => Ok ())) body Hbody
                (moves_ext s1 idle release _ Hrel)
                (h ++ [{| ev_call := take; ev_ok := true |}])) as (seg & Hs & Ps).
    exists ({| ev_call := take; ev_ok := true |} :: seg).
    rewrite Hs, <- app_assoc. split; [reflexivity |].
    change ({| ev_call := take; ev_ok := true |} :: seg)
      with ([{| ev_call := take; ev_ok := true |}] ++ seg).
    rewrite conn_protocol_app, Htake. exact Ps.
  - eexists. split; [reflexivity | exact Hfail].
  - eexists. split; [reflexivity | exact Hfail].
Qed.

Lemma currentPosition_moves : moves idle idle currentPosition.
Proof.
  unfold currentPosition.
  apply (moves_with dba); try reflexivity.
  apply moves_ext. reflexivity.
Qed.

Lemma isSchemaVersionTableEmpty_moves : moves idle idle isSchemaVersionTableEmpty.
Proof.
  unfold isSchemaVersionTableEmpty.
  apply (moves_with pooled); try reflexivity.
  apply moves_bind; [apply moves_ext; reflexivity |].
  intros rows. destruct (length rows =? 0)%nat; apply moves_ret.
Qed.

Lemma saveCurrentSchemaToDb_moves (gtid ddl : string) (timestamp : Z) :
  moves idle idle (saveCurrentSchemaToDb gtid ddl timestamp).
Proof.
  unfold saveCurrentSchemaToDb.
  apply moves_bind; [apply moves_ext; reflexivity |].
  intros blob. apply (moves_with pooled); try reflexivity.
  apply moves_bind; [apply moves_ext; reflexivity |].
  intros _. apply moves_ret.
Qed.

Lemma possiblyInsertInitialSchema_moves : moves idle idle possiblyInsertInitialSchema.
Proof.
  unfold possiblyInsertInitialSchema.
  apply moves_bind; [apply isSchemaVersionTableEmpty_moves |].
  intros needsWarming. destruct needsWarming; simpl; [| apply moves_ret].
  apply moves_bind; [apply moves_ext; reflexivity |]. intros _.
  apply moves_bind; [apply moves_ext; reflexivity |]. intros now.
  apply moves_bind; [apply currentPosition_moves |]. intros pos.
  apply saveCurrentSchemaToDb_moves.
Qed.

Lemma schemaUpdated_moves (gtid ddl : string) (timestamp : Z) :
  moves idle idle (schemaUpdated gtid ddl timestamp).
Proof.
  unfold schemaUpdated.
  destruct (_ || _); [apply moves_fail | apply saveCurrentSchemaToDb_moves].
Qed.

Lemma process_send_moves (events : list VEvent) :
  forall gtid : string, moves idle idle (process_send events gtid).
Proof.
  induction events as [| event rest IH]; intros gtid; simpl.
  - apply moves_ret.
  - apply moves_bind; [| intros _; apply IH].
    destruct (Type__ event); try apply moves_ret.
    intros h.
    destruct (MustReloadSchemaOnDDL _ _ _) as [[|] | e | p];
      try (exists []; rewrite app_nil_r; split; reflexivity).
    set (g := match Type__ event with VEventType_GTID => Gtid event | _ => gtid end).
    destruct (schemaUpdated_moves gtid (Statement_ event) (Timestamp event) h)
      as (seg & Hs & Ps).
    destruct (schemaUpdated gtid (Statement_ event) (Timestamp event) h)
      as [[u | e | p] h1]; simpl in Hs; subst h1.
    + exists seg. split; [reflexivity | exact Ps].
    + eexists (seg ++ [_]). unfold ext. simpl. rewrite app_assoc.
      split; [reflexivity |]. rewrite conn_protocol_app, Ps. reflexivity.
    + exists seg. split; [reflexivity | exact Ps].
Qed.

(** X14: the tracker keeps the discipline of its connections, whatever the
    engine and the connections answer, an error or a panic included: the
    initial snapshot, an update and a batch of events each take a connection
    only when they hold none, call [PrimaryPosition] or [Exec] only on a
    connection of the right kind, call the engine with no connection held,
    and have released what they took when they are over. *)
Theorem tracker_connection_discipline (events : list VEvent) (gtid ddl : string)
  (timestamp : Z) (h : history) :
  (exists seg, snd (possiblyInsertInitialSchema h) = h ++ seg /\
               conn_protocol idle seg = Some idle) /\
  (exists seg, snd (schemaUpdated gtid ddl timestamp h) = h ++ seg /\
               conn_protocol idle seg = Some idle) /\
  (exists seg, snd (process_send events gtid h) = h ++ seg /\
               conn_protocol idle seg = Some idle).
Proof.
  split; [apply possiblyInsertInitialSchema_moves |].
  split; [apply schemaUpdated_moves | apply process_send_moves].
Qed.

Lemma count_app {A} (f : A -> bool) (l1 l2 : list A) :
  count f (l1 ++ l2) = (count f l1 + count f l2)%nat.
Proof. unfold count. rewrite List.filter_app, length_app. reflexivity. Qed.

(** What [saveCurrentSchemaToDb] adds to the history: no call to the
    counters, one [Exec] at most, of an insert of [gtid] and [ddl], that
    succeeded exactly when the function returns nil. *)
Lemma saveCurrentSchemaToDb_trace (gtid ddl : string) (timestamp : Z) (h : history) :
  exists seg : list event,
    snd (saveCurrentSchemaToDb gtid ddl timestamp h) = h ++ seg /\
    count is_counter_add seg = 0%nat /\
    (forall ev q, ev ∈ seg -> ev_call ev = call_Exec q ->
                  exists blob, q = insert_query gtid ddl blob timestamp) /\
    match fst (saveCurrentSchemaToDb gtid ddl timestamp h) with
    | Ok _ => count is_Exec_ok seg = 1%nat
    | Err _ => count is_Exec_ok seg = 0%nat
    | Panic _ => True
    end.
Proof.
  unfold saveCurrentSchemaToDb, io_bind, defer, ext, io_ret.
  destruct (MarshalMinimalSchema h) as [blob | e | p]; simpl;
    try (eexists; split; [reflexivity |]; split; [reflexivity |]; split; [| exact I || reflexivity];
         intros ev q Hev Hq; apply list_elem_of_singleton in Hev; subst ev; discriminate).
  destruct (GetConnection _) as [u | e | p]; simpl;
    try (eexists; split; [rewrite <- app_assoc; reflexivity |]; split; [reflexivity |];
         split; [| exact I || reflexivity];
         intros ev q Hev Hq; repeat (apply elem_of_cons in Hev as [-> | Hev]); try discriminate;
         inversion Hev).
  destruct (Exec _ _) as [rows | e | p]; simpl;
    (eexists; split; [rewrite <- !app_assoc; reflexivity |]; split; [reflexivity |];
     split; [| exact I || reflexivity];
     intros ev q Hev Hq; repeat (apply elem_of_cons in Hev as [-> | Hev]); try discriminate;
     [injection Hq as <-; eexists; reflexivity | inversion Hev]).
Qed.

Lemma schemaUpdated_trace (gtid ddl : string) (timestamp : Z) (h : history) :
  exists seg : list event,
    snd (schemaUpdated gtid ddl timestamp h) = h ++ seg /\
    count is_counter_add seg = 0%nat /\
    (forall ev q, ev ∈ seg -> ev_call ev = call_Exec q ->
                  gtid <> ""%string /\ ddl <> ""%string /\
                  exists blob, q = insert_query gtid ddl blob timestamp) /\
    ((gtid = "" \/ ddl = "")%string -> seg = [] /\ is_err (fst (schemaUpdated gtid ddl timestamp h)) = true) /\
    match fst (schemaUpdated gtid ddl timestamp h) with
    | Ok _ => count is_Exec_ok seg = 1%nat
    | Err _ => count is_Exec_ok seg = 0%nat
    | Panic _ => True
    end.
Proof.
  unfold schemaUpdated.
  assert (Hnil : forall e : error,
             exists seg : list event,
               snd (io_fail (A := unit) e h) = h ++ seg /\
               count is_counter_add seg = 0%nat /\
               (forall ev q, ev ∈ seg -> ev_call ev = call_Exec q ->
                             gtid <> ""%string /\ ddl <> ""%string /\
                             exists blob, q = insert_query gtid ddl blob timestamp) /\
               ((gtid = "" \/ ddl = "")%string ->
                seg = [] /\ is_err (fst (io_fail (A := unit) e h)) = true) /\
               count is_Exec_ok seg = 0%nat).
  { intros e. exists []. simpl. rewrite app_nil_r.
    split; [reflexivity |]. split; [reflexivity |].
    split; [intros ev q Hev; inversion Hev |].
    split; [intros _; split; reflexivity | reflexivity]. }
  destruct (String.eqb_spec gtid "") as [Hg | Hg]; simpl;
    [exact (Hnil (fmt_Errorf "got invalid gtid or ddl in schemaUpdated")) |].
  destruct (String.eqb_spec ddl "") as [Hd | Hd]; simpl;
    [exact (Hnil (fmt_Errorf "got invalid gtid or ddl in schemaUpdated")) |].
  destruct (saveCurrentSchemaToDb_trace gtid ddl timestamp h) as (seg & Hs & Hc & Hq & Hr).
  exists seg.
  split; [exact Hs |]. split; [exact Hc |].
  split; [intros ev q Hev Hcall; split; [exact Hg | split; [exact Hd | exact (Hq ev q Hev Hcall)]] |].
  split; [intros [H | H]; contradiction | exact Hr].
Qed.

Lemma MustReloadSchemaOnDDL_no_error (sql dbname : string) (parser : Parser) :
  is_err (MustReloadSchemaOnDDL sql dbname parser) = false.
Proof.
  unfold MustReloadSchemaOnDDL.
  destruct (Parse parser sql) as [[[x | stmt | | x] |] | e | p]; reflexivity.
Qed.

Lemma last_gtid_cons (event : VEvent) (rest : list VEvent) (gtid : string) :
  last_gtid (event :: rest) gtid =
    last_gtid rest (match Type__ event with
                    | VEventType_GTID => Gtid event
                    | _ => gtid
                    end).
Proof. reflexivity. Qed.

(** X15: the function [process] hands to the stream never returns an
    error, so that a failure to save never stops the stream. When it
    returns, the variable [gtid] holds the gtid of the last GTID event of the
    batch, and every DDL event for which the schema must be saved has led to
    one insert that succeeded or to one addition to the error counters. *)
Theorem process_send_saves_or_counts (events : list VEvent) :
  forall (gtid : string) (h : history),
    match process_send events gtid h with
    | (Ok gtid', h') =>
        gtid' = last_gtid events gtid /\
        exists seg : list event,
          h' = h ++ seg /\
          (count is_counter_add seg + count is_Exec_ok seg = count must_save events)%nat
    | (Err _, _) => False
    | (Panic _, _) => True
    end.
Proof.
  induction events as [| evt rest IH]; intros gtid h.
  - simpl. split; [reflexivity |]. exists []. rewrite app_nil_r. split; reflexivity.
  - rewrite last_gtid_cons. simpl process_send. unfold io_bind at 1.
    set (g := match Type__ evt with VEventType_GTID => Gtid evt | _ => gtid end).
    assert (Hskip : must_save evt = false ->
              match process_send rest g h with
              | (Ok gtid', h') =>
                  gtid' = last_gtid rest g /\
                  exists seg : list event,
                    h' = h ++ seg /\
                    (count is_counter_add seg + count is_Exec_ok seg =
                     count must_save (evt :: rest))%nat
              | (Err _, _) => False
              | (Panic _, _) => True
              end).
    { intros Hno. specialize (IH g h).
      destruct (process_send rest g h) as [[g' | e | p] h']; auto.
      destruct IH as (Hg & seg & Hs & Hc). split; [exact Hg |].
      exists seg. split; [exact Hs |].
      unfold count at 3. simpl. rewrite Hno. exact Hc. }
    unfold must_save in Hskip.
    destruct (Type__ evt) eqn:Hty; try (apply Hskip; reflexivity).
    pose proof (MustReloadSchemaOnDDL_no_error (Statement_ evt) DBName Environment_Parser) as Hne.
    destruct (MustReloadSchemaOnDDL (Statement_ evt) DBName Environment_Parser)
      as [[|] | e | p] eqn:Hmust; try discriminate; try (apply Hskip; reflexivity);
      [| exact I].
    clear Hskip.
    destruct (schemaUpdated_trace g (Statement_ evt) (Timestamp evt) h)
      as (seg1 & Hs1 & Hc1 & _ & _ & Hr1).
    assert (Hone : count must_save (evt :: rest) = S (count must_save rest)).
    { unfold count. simpl. unfold must_save at 1. rewrite Hty, Hmust. reflexivity. }
    destruct (schemaUpdated g (Statement_ evt) (Timestamp evt) h)
      as [[u | e | p] h1]; simpl in Hs1, Hr1; subst h1; [| | exact I].
    + specialize (IH g (h ++ seg1)).
      destruct (process_send rest g (h ++ seg1)) as [[g' | e | p] h']; auto.
      destruct IH as (Hg & seg & Hs & Hc). split; [exact Hg |].
      exists (seg1 ++ seg). rewrite app_assoc. split; [exact Hs |].
      rewrite !count_app, Hone. lia.
    + unfold ext. simpl.
      specialize (IH g ((h ++ seg1) ++ [{| ev_call := call_ErrorCounters_Add "INTERNAL" 1;
                                          ev_ok := true |}])).
      destruct (process_send rest g _) as [[g' | e' | p] h']; auto.
      destruct IH as (Hg & seg & Hs & Hc). split; [exact Hg |].
      exists (seg1 ++ [{| ev_call := call_ErrorCounters_Add "INTERNAL" 1; ev_ok := true |}] ++ seg).
      rewrite !app_assoc. split; [exact Hs |].
      rewrite <- !app_assoc, !count_app, Hone.
      change (count is_counter_add [{| ev_call := call_ErrorCounters_Add "INTERNAL" 1; ev_ok := true |}])
        with 1%nat.
      change (count is_Exec_ok [{| ev_call := call_ErrorCounters_Add "INTERNAL" 1; ev_ok := true |}])
        with 0%nat.
      lia.
Qed.

Lemma extends_ret {A} (P : event -> Prop) (a : A) : extends P (io_ret a).
Proof. intros h. exists []. rewrite app_nil_r. split; [reflexivity | constructor]. Qed.

Lemma extends_fail {A} (P : event -> Prop) (e : error) :
  extends P (io_fail (A := A) e).
Proof. intros h. exists []. rewrite app_nil_r. split; [reflexivity | constructor]. Qed.

Lemma extends_bind {A B} (P : event -> Prop) (m : io A) (k : A -> io B) :
  extends P m -> (forall a, extends P (k a)) -> extends P (io_bind m k).
Proof.
  intros Hm Hk h. unfold io_bind.
  destruct (Hm h) as (seg1 & H1 & P1).
  destruct (m h) as [[a | e | p] h1]; simpl in H1; subst h1.
  - destruct (Hk a (h ++ seg1)) as (seg2 & H2 & P2).
    exists (seg1 ++ seg2). rewrite H2, app_assoc. split; [reflexivity |].
    apply Forall_app. split; assumption.
  - exists seg1. split; [reflexivity | exact P1].
  - exists seg1. split; [reflexivity | exact P1].
Qed.

Lemma extends_ext {A} (P : event -> Prop) (c : call) (answer : history -> outcome A) :
  (forall ok, P {| ev_call := c; ev_ok := ok |}) -> extends P (ext c answer).
Proof.
  intros Hc h. unfold ext. eexists. split; [reflexivity |].
  constructor; [apply Hc | constructor].
Qed.

Lemma extends_defer {A} (P : event -> Prop) (d : io unit) (body : io A) :
  extends P body -> extends P d -> extends P (defer d body).
Proof.
  intros Hb Hd h. unfold defer.
  destruct (Hb h) as (seg1 & H1 & P1).
  destruct (body h) as [r h1]; simpl in H1; subst h1.
  destruct (Hd (h ++ seg1)) as (seg2 & H2 & P2).
  exists (seg1 ++ seg2). simpl. rewrite H2, app_assoc. split; [reflexivity |].
  apply Forall_app. split; assumption.
Qed.

Lemma possiblyInsertInitialSchema_queries : extends initial_query possiblyInsertInitialSchema.
Proof.
  unfold possiblyInsertInitialSchema.
  apply extends_bind.
  { unfold isSchemaVersionTableEmpty.
    apply extends_bind; [apply extends_ext; intros ok q; discriminate |].
    intros _. apply extends_defer; [| apply extends_ext; intros ok q; discriminate].
    apply extends_bind.
    - apply extends_ext. intros ok q [= <-]. left. reflexivity.
    - intros rows. destruct (length rows =? 0)%nat; apply extends_ret. }
  intros needsWarming. destruct needsWarming; simpl; [| apply extends_ret].
  apply extends_bind; [apply extends_ext; intros ok q; discriminate |]. intros _.
  apply extends_bind; [apply extends_ext; intros ok q; discriminate |]. intros now.
  apply extends_bind.
  { unfold currentPosition.
    apply extends_bind; [apply extends_ext; intros ok q; discriminate |].
    intros _. apply extends_defer; apply extends_ext; intros ok q; discriminate. }
  intros pos h.
  destruct (saveCurrentSchemaToDb_trace (EncodePosition pos) "" (Z.quot now 1000000000) h)
    as (seg & Hs & _ & Hq & _).
  exists seg. split; [exact Hs |].
  apply Forall_forall. intros ev Hev q Hcall.
  destruct (Hq ev q Hev Hcall) as [blob ->]. right. exists pos, blob, now. reflexivity.
Qed.

Lemma batch_query_cons (evt : VEvent) (rest : list VEvent) (ev : event) :
  batch_query rest ev -> batch_query (evt :: rest) ev.
Proof.
  intros H q Hq. destruct (H q Hq) as (g & e & blob & Hg & Hd & Hin & Hty & ->).
  exists g, e, blob. repeat split; auto. right. exact Hin.
Qed.

Lemma process_send_queries (events : list VEvent) :
  forall gtid : string, extends (batch_query events) (process_send events gtid).
Proof.
  induction events as [| evt rest IH]; intros gtid; simpl.
  - apply extends_ret.
  - apply extends_bind.
    2:{ intros _ h. destruct (IH (match Type__ evt with
                                   | VEventType_GTID => Gtid evt
                                   | _ => gtid
                                   end) h) as (seg & Hs & Hq).
        exists seg. split; [exact Hs |].
        eapply Forall_impl; [exact Hq |]. intros ev. apply batch_query_cons. }
    destruct (Type__ evt) eqn:Hty; try apply extends_ret.
    intros h.
    destruct (MustReloadSchemaOnDDL _ _ _) as [[|] | e | p];
      try (exists []; rewrite app_nil_r; split; [reflexivity | constructor]).
    destruct (schemaUpdated_trace gtid (Statement_ evt) (Timestamp evt) h)
      as (seg & Hs & _ & Hq & _ & _).
    assert (HP : Forall (batch_query (evt :: rest)) seg).
    { apply Forall_forall. intros ev Hev q Hcall.
      destruct (Hq ev q Hev Hcall) as (Hg & Hd & blob & ->).
      exists gtid, evt, blob. repeat split; auto. left. }
    destruct (schemaUpdated gtid (Statement_ evt) (Timestamp evt) h)
      as [[u | e | p] h1]; simpl in Hs; subst h1.
    + exists seg. split; [reflexivity | exact HP].
    + eexists (seg ++ [_]). unfold ext. simpl. rewrite app_assoc.
      split; [reflexivity |]. apply Forall_app. split; [exact HP |].
      constructor; [intros q; discriminate | constructor].
    + exists seg. split; [reflexivity | exact HP].
Qed.

(** X16: what the tracker executes. The initial snapshot executes the
    select and inserts of an empty ddl, nothing else; a batch of events
    executes nothing but inserts of the statement and the timestamp of a DDL
    event of the batch, and neither the gtid nor the ddl of such an insert is
    empty. *)
Theorem tracker_queries (events : list VEvent) (gtid : string) (h : history) :
  (exists seg : list event,
     snd (possiblyInsertInitialSchema h) = h ++ seg /\ Forall initial_query seg) /\
  (exists seg : list event,
     snd (process_send events gtid h) = h ++ seg /\ Forall (batch_query events) seg).
Proof.
  split; [apply possiblyInsertInitialSchema_queries | apply process_send_queries].
Qed.

(** X17: without a gtid nothing is saved. In a batch whose GTID events, if
    any, carry no gtid, run with the variable [gtid] still empty, no call
    reaches the engine or a connection: the batch only adds to the error
    counters, once for each DDL event for which the schema had to be
    saved. *)
Theorem process_send_without_gtid (events : list VEvent) :
  forall h : history,
    no_gtid events = true ->
    exists seg : list event,
      snd (process_send events "" h) = h ++ seg /\
      forallb is_counter_add seg = true /\
      (is_ok (fst (process_send events "" h)) = true ->
       length seg = count must_save events).
Proof.
  induction events as [| evt rest IH]; intros h Hno.
  - exists []. simpl. rewrite app_nil_r. repeat split; reflexivity.
  - simpl in Hno. apply andb_prop in Hno as [Hevt Hrest].
    simpl process_send. unfold io_bind at 1.
    assert (Hg : match Type__ evt with VEventType_GTID => Gtid evt | _ => ""%string end
                 = ""%string).
    { destruct (Type__ evt); [apply String.eqb_eq; exact Hevt | reflexivity ..]. }
    rewrite Hg.
    assert (Hskip : must_save evt = false ->
              exists seg : list event,
                snd (process_send rest "" h) = h ++ seg /\
                forallb is_counter_add seg = true /\
                (is_ok (fst (process_send rest "" h)) = true ->
                 length seg = count must_save (evt :: rest))).
    { intros Hm. destruct (IH h Hrest) as (seg & Hs & Hc & Hl).
      exists seg. split; [exact Hs |]. split; [exact Hc |].
      unfold count. simpl. rewrite Hm. exact Hl. }
    unfold must_save in Hskip.
    destruct (Type__ evt) eqn:Hty; try (apply Hskip; reflexivity).
    pose proof (MustReloadSchemaOnDDL_no_error (Statement_ evt) DBName Environment_Parser) as Hne.
    destruct (MustReloadSchemaOnDDL (Statement_ evt) DBName Environment_Parser)
      as [[|] | e | p] eqn:Hmust; try discriminate; try (apply Hskip; reflexivity).
    + clear Hskip. unfold schemaUpdated. simpl. unfold ext. simpl.
      destruct (IH (h ++ [{| ev_call := call_ErrorCounters_Add "INTERNAL" 1; ev_ok := true |}])
                  Hrest) as (seg & Hs & Hc & Hl).
      exists ({| ev_call := call_ErrorCounters_Add "INTERNAL" 1; ev_ok := true |} :: seg).
      rewrite Hs, <- app_assoc. split; [reflexivity |].
      split; [simpl; exact Hc |].
      intros Hok. unfold count. simpl. unfold must_save at 1. rewrite Hty, Hmust. simpl.
      f_equal. apply Hl. exact Hok.
    + exists []. simpl. rewrite app_nil_r. split; [reflexivity |].
      split; [reflexivity | discriminate].
Qed.

(** X20: the batches of a stream compose. Running the function over two
    batches, the second from the history and the [gtid] the first leaves, is
    running it over the two batches put together: where the stream cuts its
    batches changes nothing. *)
Theorem process_send_batches_compose (batch1 batch2 : list VEvent) :
  forall (gtid : string) (h : history),
    process_send (batch1 ++ batch2) gtid h =
      io_bind (process_send batch1 gtid) (fun gtid' => process_send batch2 gtid') h.
Proof.
  induction batch1 as [| evt rest IH]; intros gtid h.
  - reflexivity.
  - simpl.
    match goal with
    | |- io_bind ?m _ h = _ => generalize m
    end.
    intros m. unfold io_bind at 1 2 3.
    destruct (m h) as [[u | e | p] h1]; try reflexivity.
    apply IH.
Qed.

End TrackerFacts.


(** ** Open, Close and Enable *)

Section LifecycleFacts.
Import schema.

Lemma remove_one_length (c : nat) (l : list nat) :
  c ∈ l -> S (length (remove_one c l)) = length l.
Proof.
  induction l as [| x r IH]; intros Hin; [inversion Hin |].
  simpl. destruct (Nat.eqb_spec x c) as [-> | Hne]; [reflexivity |].
  simpl. f_equal. apply IH. apply elem_of_cons in Hin as [-> | Hin]; [contradiction | exact Hin].
Qed.

Lemma remove_one_subset (c x : nat) (l : list nat) :
  x ∈ remove_one c l -> x ∈ l.
Proof.
  induction l as [| y r IH]; intros Hin; [inversion Hin |].
  simpl in Hin. destruct (Nat.eqb_spec y c) as [-> | Hne].
  - right. exact Hin.
  - apply elem_of_cons in Hin as [-> | Hin]; [left | right; apply IH; exact Hin].
Qed.

Lemma tracker_inv_start (b : bool) : tracker_inv (start b).
Proof.
  unfold tracker_inv, start; simpl. repeat split; auto; try discriminate.
Qed.

Lemma perform_keeps_inv (a : action) (s s' : system) :
  tracker_inv s -> perform a s = Some s' -> tracker_inv s'.
Proof.
  intros (Hwg & Hle & Hopen & Hsame & Hnone & Hcan) Hp.
  destruct a; simpl in Hp.
  - destruct (enabled (tr s)); injection Hp as <-; unfold tracker_inv; simpl; split_and!; eauto.
  - destruct (opening s) as [| n]; [discriminate |].
    destruct (closing s) eqn:Hcl; [discriminate |].
    destruct (cancel (tr s)) as [c |] eqn:Hc.
    + injection Hp as <-. unfold tracker_inv; simpl. rewrite Hc. split_and!; eauto.
    + injection Hp as <-. unfold tracker_inv; simpl.
      rewrite (Hnone eq_refl eq_refl) in *. simpl in *.
      split_and!; try discriminate; auto; try lia.
      intros c c' [= <-] Hin. apply list_elem_of_singleton in Hin. exact Hin.
  - destruct (closing s) eqn:Hcl; [discriminate |].
    destruct (cancel (tr s)) as [c |] eqn:Hc.
    + injection Hp as <-. unfold tracker_inv; simpl.
      split_and!; try discriminate; auto.
      intros _ c' Hin. rewrite (Hsame c c' eq_refl Hin). left.
    + injection Hp as <-. unfold tracker_inv. rewrite Hc, Hcl. split_and!; auto; discriminate.
  - destruct (closing s) eqn:Hcl; [| discriminate].
    destruct (Z.eqb_spec (wg (tr s)) 0) as [H0 | _]; [| discriminate].
    injection Hp as <-. unfold tracker_inv; simpl.
    assert (Hnil : procs s = []).
    { destruct (procs s); [reflexivity |]. simpl in Hwg. lia. }
    rewrite Hnil in *. split_and!; auto.
  - destruct (closing s) eqn:Hcl; [discriminate |].
    injection Hp as <-. unfold tracker_inv; simpl. split_and!; eauto.
  - destruct (bool_decide (ctx ∈ procs s)) eqn:Hin; [| discriminate].
    apply bool_decide_eq_true in Hin.
    injection Hp as <-. unfold tracker_inv; simpl.
    pose proof (remove_one_length ctx (procs s) Hin) as Hlen.
    split_and!; try lia; eauto.
    + intros c c' Hc Hc'. apply remove_one_subset in Hc'. eauto.
    + intros Hc Hcl. rewrite (Hnone Hc Hcl) in Hin. inversion Hin.
    + intros Hc c' Hc'. apply remove_one_subset in Hc'. eauto.
Qed.

Lemma perform_all_inv (acts : list action) :
  forall s s', tracker_inv s -> perform_all acts s = Some s' -> tracker_inv s'.
Proof.
  induction acts as [| a rest IH]; intros s s' Hi Hr; simpl in Hr.
  - injection Hr as <-. exact Hi.
  - destruct (perform a s) as [s1 |] eqn:Hp; [| discriminate].
    apply (IH s1 s'); [apply (perform_keeps_inv a s s1 Hi Hp) | exact Hr].
Qed.

(** X18: however the calls of [Open], [Close] and [Enable] and the ends of
    [process] interleave, the counter of the WaitGroup is the number of
    goroutines that run [process], which is one at most; none runs when
    [cancel] is nil and no [Close] is waiting; and one that runs has the
    context [cancel] cancels, or a context that has been cancelled. *)
Theorem tracker_runs_one_process (b : bool) (acts : list action) (s : system) :
  perform_all acts (start b) = Some s ->
  wg (tr s) = Z.of_nat (length (procs s)) /\
  (length (procs s) <= 1)%nat /\
  (cancel (tr s) = None -> closing s = false -> procs s = []) /\
  (forall c, c ∈ procs s -> cancel (tr s) = Some c \/ c ∈ cancelled s).
Proof.
  intros Hr. destruct (perform_all_inv acts (start b) s (tracker_inv_start b) Hr)
    as (Hwg & Hle & Hopen & Hsame & Hnone & Hcan).
  split_and!; auto.
  intros c Hc. destruct (cancel (tr s)) as [c0 |] eqn:E.
  - left. f_equal. symmetry. apply (Hsame c0 c eq_refl Hc).
  - right. apply (Hcan eq_refl c Hc).
Qed.

Lemma perform_stays_dead (a : action) (s s' : system) (c : nat) :
  is_Close_locked a = false ->
  cancel (tr s) = Some c -> procs s = [] ->
  perform a s = Some s' ->
  cancel (tr s') = Some c /\ procs s' = [].
Proof.
  intros Ha Hc Hp Hs. destruct a; simpl in Hs; try discriminate.
  - destruct (enabled (tr s)); injection Hs as <-; simpl; auto.
  - destruct (opening s); [discriminate |]. destruct (closing s); [discriminate |].
    rewrite Hc in Hs. injection Hs as <-. simpl. auto.
  - destruct (closing s && (wg (tr s) =? 0)); [| discriminate].
    injection Hs as <-. simpl. auto.
  - destruct (closing s); [discriminate |]. injection Hs as <-. simpl. auto.
  - rewrite Hp in Hs. rewrite bool_decide_eq_false_2 in Hs; [discriminate |].
    intros H. inversion H.
Qed.

(** X19: once [process] has returned by itself, with [cancel] still set,
    no call of [Open] starts it again, whatever [Enable] sets: as long as
    [Close] is not called, by [Enable(false)] or by anyone else, [cancel]
    stays as it is and no goroutine runs [process]. *)
Theorem tracker_is_not_restarted (acts : list action) :
  forall (s s' : system) (c : nat),
    forallb (fun a => negb (is_Close_locked a)) acts = true ->
    cancel (tr s) = Some c -> procs s = [] ->
    perform_all acts s = Some s' ->
    cancel (tr s') = Some c /\ procs s' = [].
Proof.
  induction acts as [| a rest IH]; intros s s' c Hno Hc Hp Hr; simpl in Hr.
  - injection Hr as <-. auto.
  - simpl in Hno. apply andb_prop in Hno as [Ha Hrest]. apply negb_true_iff in Ha.
    destruct (perform a s) as [s1 |] eqn:Hs; [| discriminate].
    destruct (perform_stays_dead a s s1 c Ha Hc Hp Hs) as [Hc1 Hp1].
    apply (IH s1 s' c Hrest Hc1 Hp1 Hr).
Qed.

(** X21: [Close] does not wait for ever on its own account. Whenever a call
    of [Close] waits in [tr.wg.Wait()], the return of the goroutines that
    run [process] (one at most) brings the counter to zero: the wait is then
    over, and [Close] leaves a tracker with no [process] and a nil
    [cancel]. *)
Theorem Close_returns_when_process_does (b : bool) (acts : list action) (s : system) :
  perform_all acts (start b) = Some s ->
  closing s = true ->
  exists s' : system,
    perform_all (map process_returns (procs s) ++ [Close_waited]) s = Some s' /\
    closing s' = false /\ procs s' = [] /\ cancel (tr s') = None /\ wg (tr s') = 0.
Proof.
  intros Hr Hcl.
  destruct (perform_all_inv acts (start b) s (tracker_inv_start b) Hr)
    as (Hwg & Hle & Hopen & Hsame & Hnone & Hcan).
  assert (Hc : cancel (tr s) = None).
  { destruct (cancel (tr s)) as [c |] eqn:E; [| reflexivity].
    rewrite (Hopen c eq_refl) in Hcl. discriminate. }
  destruct (procs s) as [| c [| c' l]] eqn:Hp; simpl in Hle; [| | lia].
  - simpl. rewrite Hcl. simpl in Hwg. rewrite Hwg. simpl.
    eexists. split; [reflexivity |]. simpl. auto.
  - simpl. rewrite Hp. rewrite bool_decide_eq_true_2 by left.
    simpl. rewrite Nat.eqb_refl, Hcl. simpl in Hwg. rewrite Hwg. simpl.
    eexists. split; [reflexivity |]. simpl. auto.
Qed.

End LifecycleFacts.

(** ** The theorems at concrete inputs *)

Module Instances.
Import MySQL MySQLNulls CountingParser.

(** C2 at ['abc'] and utf16_general_ci: three bytes, one zero byte in
    front. *)
Lemma introducerCast_pads_abc_for_utf16 :
  54 <> CollationBinaryID /\
  colldata_Lookup_Charset 54 = Some Charset_utf16 /\
  unit_width Charset_utf16 = Some 2%nat /\
  exists (out : evalBytes) (k : nat),
    introducerCast (eval_bytes lit_abc : eval evalInt64) 54 = Ok out /\
    tt out = VarChar /\
    col out = {| Collation := 54; Coercibility_ := CoerceCoercible;
                 Repertoire_ := RepertoireASCII |} /\
    bytes out = replicate k x00 ++ bytes lit_abc /\
    (k < 2)%nat /\
    (length (bytes out) mod 2 = 0)%nat /\
    ((length (bytes lit_abc) mod 2 = 0)%nat -> bytes out = bytes lit_abc) /\
    (2%nat = 2%nat -> (length (bytes lit_abc) mod 2 <> 0)%nat -> bytes out = x00 :: bytes lit_abc) /\
    (2%nat = 4%nat -> (length (bytes lit_abc) mod 4 <> 0)%nat ->
       (length (bytes lit_abc) < length (bytes out) < length (bytes lit_abc) + 4)%nat).
Proof.
  split; [discriminate |]. split; [reflexivity |]. split; [reflexivity |].
  apply (introducerCast_pads_to_unit_width lit_abc 54 Charset_utf16 2).
  - discriminate.
  - reflexivity.
  - reflexivity.
Defined.

(** C9 at [NULL COLLATE utf8mb4_bin], in an environment that rejects every
    pair of collations. *)
Lemma collate_NULL_in_a_rejecting_environment :
  IR_eval (Inner collate_null) rejecting_row = Ok eval_nil /\
  CollateExpr_eval collate_null rejecting_row = Ok eval_nil.
Proof.
  split; [reflexivity |].
  apply (CollateExpr_eval_NULL_skips_check collate_null). reflexivity.
Defined.

(** C6 (amended) at ['abc' COLLATE utf8mb4_bin]. *)
Lemma collate_abc_twice :
  IR_eval (Inner collate_abc) empty_row = Ok (eval_bytes lit_abc) /\
  EnsureCollate collations_env 46 46 = None /\
  CollateExpr_eval collate_abc empty_row =
    Ok (eval_bytes {| tt := VarChar; flag := flagExplicitCollation;
                      col := utf8mb4_bin; bytes := [x61; x62; x63] |}) /\
  CollateExpr_eval (collate_again collate_abc) empty_row =
    Ok (eval_bytes {| tt := VarChar; flag := flagExplicitCollation;
                      col := utf8mb4_bin; bytes := [x61; x62; x63] |}).
Proof.
  split; [reflexivity |]. split; [reflexivity |]. split; [reflexivity |].
  apply (Collate_idempotent_on_byte_values collate_abc empty_row lit_abc).
  - reflexivity.
  - reflexivity.
  - reflexivity.
Defined.

(** C5 at [_binary 'abc']. *)
Lemma introducer_binary_abc :
  Collation binary = CollationBinaryID /\
  IR_eval abc empty_row = Ok (eval_bytes lit_abc) /\
  eval_ToRawBytes (eval_bytes lit_abc) = Ok [x61; x62; x63] /\
  exists b : evalBytes,
    IR_eval (introducer abc binary) empty_row = Ok (eval_bytes b) /\
    bytes b = [x61; x62; x63] /\
    (forall lit, eval_bytes lit_abc = eval_bytes (evalOther := evalInt64) lit -> bytes b = bytes lit) /\
    tt b = VarBinary /\
    col b = collationBinary /\
    Coercibility_ (col b) = CoerceCoercible.
Proof.
  split; [reflexivity |]. split; [reflexivity |]. split; [reflexivity |].
  apply (MySQLFacts.introducer_binary_is_opaque abc empty_row (eval_bytes lit_abc)
           [x61; x62; x63] binary).
  - reflexivity.
  - reflexivity.
  - reflexivity.
Defined.

(** C10 at [_binary 'a' COLLATE utf8mb4_bin]: the inner slot is a
    VarBinary, the environment rejects the pair, and the node compiles to
    the push of the literal and [Collate]. *)
Lemma collate_binary_a_compiles :
  IR_compile (Inner collate_binary_a) fresh_compiler =
    (Ok ctype_binary_a, snd (IR_compile binary_a fresh_compiler)) /\
  EnsureCollate collations_env (Collation (Col ctype_binary_a)) (Collation utf8mb4_bin) <> None /\
  CollateExpr_compile collate_binary_a fresh_compiler =
    (Ok {| Type_ := VarChar;
           Flag := Z.lor 0 (Z.lor flagExplicitCollation flagNullable);
           Col := utf8mb4_bin |},
     {| asm_ins := asm_ins (snd (IR_compile binary_a fresh_compiler)) ++ [Collate utf8mb4_bin];
        c_env := collations_env |}).
Proof.
  split; [reflexivity |]. split; [discriminate |].
  apply (CollateExpr_compile_checks_VarChar_only collate_binary_a fresh_compiler
           (snd (IR_compile binary_a fresh_compiler)) ctype_binary_a).
  - reflexivity.
  - reflexivity.
Defined.


(** C7 after one failed parse from the empty pool. *)
Lemma pool_after_one_failed_parse :
  reachable 0%nat counting_Parse after_one_parse /\
  (forall p, p ∈ parserPool after_one_parse -> heap after_one_parse !! p = Some (zeroParser 0%nat)) /\
  (forall p r, Putting p r ∈ calls after_one_parse ->
               heap after_one_parse !! p = Some (zeroParser 0%nat)) /\
  (forall p w1, parserPool_Get 0%nat after_one_parse = (p, w1) ->
                heap w1 !! p = Some (zeroParser 0%nat)) /\
  (forall yylex r w',
     yyParsePooled 0%nat counting_Parse yylex after_one_parse = (r, w') ->
     forall p, p ∈ parserPool w' -> heap w' !! p = Some (zeroParser 0%nat)).
Proof.
  assert (Hreach : reachable 0%nat counting_Parse after_one_parse).
  { apply (yyParsePooled_reachable 0%nat counting_Parse 7%nat init_world after_one_parse
             (fst (yyParsePooled 0%nat counting_Parse 7%nat init_world))).
    - apply reachable_init.
    - unfold after_one_parse. apply surjective_pairing. }
  split; [exact Hreach |].
  exact (pooled_parsers_are_zeroed 0%nat counting_Parse after_one_parse Hreach).
Defined.

End Instances.

(** ** More theorems at concrete inputs *)

Module MoreInstances.
Import MySQL CountingParser sqlparser schema Scripted.

(** X1 at ['abc'] and utf16_general_ci: the padded bytes are padded no
    more. *)
Lemma introducerCast_abc_utf16_twice :
  54 <> CollationBinaryID /\
  introducerCast (eval_bytes lit_abc : eval evalInt64) 54 = Ok padded_abc /\
  introducerCast (eval_bytes padded_abc : eval evalInt64) 54 = Ok padded_abc.
Proof.
  split; [discriminate |]. split; [reflexivity |].
  apply (introducerCast_idempotent lit_abc padded_abc 54).
  - discriminate.
  - reflexivity.
Defined.

(** X2 at [_utf16 'abc']: the node's collation is Explicit and Unicode, the
    value's Coercible and ASCII. *)
Lemma utf16_abc_value_and_descriptor :
  Collation (ITypedCollation utf16_abc) <> CollationBinaryID /\
  IntroducerExpr_eval utf16_abc empty_row =
    Ok (eval_bytes (or_flag padded_abc flagExplicitCollation)) /\
  IntroducerExpr_compile utf16_abc fresh_compiler =
    (Ok {| Type_ := VarChar; Flag := flagExplicitCollation; Col := utf16_general_ci |},
     snd (IntroducerExpr_compile utf16_abc fresh_compiler)) /\
  exists b : evalBytes,
    eval_bytes (evalOther := evalInt64) (or_flag padded_abc flagExplicitCollation) = eval_bytes b /\
    tt b = VarChar /\ VarChar = VarChar /\
    flag b = flagExplicitCollation /\ flagExplicitCollation = flagExplicitCollation /\
    nullable {| Type_ := VarChar; Flag := flagExplicitCollation; Col := utf16_general_ci |} = false /\
    col b = {| Collation := 54; Coercibility_ := CoerceCoercible;
               Repertoire_ := RepertoireASCII |} /\
    utf16_general_ci = ITypedCollation utf16_abc /\
    (col b = utf16_general_ci <->
     Coercibility_ (ITypedCollation utf16_abc) = CoerceCoercible /\
     Repertoire_ (ITypedCollation utf16_abc) = RepertoireASCII).
Proof.
  split; [discriminate |]. split; [reflexivity |]. split; [reflexivity |].
  apply (IntroducerExpr_value_and_descriptor utf16_abc empty_row
           (eval_bytes (or_flag padded_abc flagExplicitCollation))
           fresh_compiler (snd (IntroducerExpr_compile utf16_abc fresh_compiler))
           {| Type_ := VarChar; Flag := flagExplicitCollation; Col := utf16_general_ci |}).
  - discriminate.
  - reflexivity.
  - reflexivity.
Defined.

(** X3 after one failed parse: the second parse starts from zero. *)
Lemma pooled_parse_after_one_parse :
  reachable 0%nat counting_Parse after_one_parse /\
  fst (yyParsePooled 0%nat counting_Parse 7%nat after_one_parse) =
    snd (counting_Parse (zeroParser 0%nat) 7%nat).
Proof.
  assert (Hreach : reachable 0%nat counting_Parse after_one_parse).
  { apply (yyParsePooled_reachable 0%nat counting_Parse 7%nat init_world after_one_parse
             (fst (yyParsePooled 0%nat counting_Parse 7%nat init_world))).
    - apply reachable_init.
    - unfold after_one_parse. apply surjective_pairing. }
  split; [exact Hreach |].
  exact (yyParsePooled_ignores_history 0%nat counting_Parse 7%nat after_one_parse Hreach).
Defined.

(** X5 at the version of a server with a suffix. *)
Lemma comment_version_of_8_0_30_log :
  ConvertMySQLVersionToCommentVersion "8.0.30-log" = Ok "80030"%string /\
  digits_only "80030" = true /\ (5 <= String.length "80030")%nat.
Proof.
  split; [reflexivity |].
  apply (ConvertMySQLVersion_digits "8.0.30-log" "80030"). reflexivity.
Defined.

(** X7 at 8, 8.0 and 8.0.30. *)
Lemma comment_versions_of_8_0_30 :
  Z.of_N 8 < 2 ^ 63 /\ Z.of_N 0 < 2 ^ 63 /\ Z.of_N 30 < 2 ^ 63 /\
  ends_the_version "-log" = true /\
  no_digit_next ".7-log" = true /\
  ConvertMySQLVersionToCommentVersion "8-log" = Ok "80000"%string /\
  ConvertMySQLVersionToCommentVersion "8.0-log" = Ok "80000"%string /\
  ConvertMySQLVersionToCommentVersion "8.0.30.7-log" = Ok "80030"%string.
Proof.
  split; [reflexivity |]. split; [reflexivity |]. split; [reflexivity |].
  split; [reflexivity |]. split; [reflexivity |].
  exact (ConvertMySQLVersion_components 8 0 30 "-log" ".7-log"
           eq_refl eq_refl eq_refl eq_refl eq_refl).
Defined.

(** X8 at MariaDB 10.4.123: its comment version, 1004123, is below
    "80000". *)
Lemma mariadb_10_is_below_80 :
  New "8.0.30" {| MySQLServerVersion := "10.4.123"; TruncateUILen := 512; TruncateErrLen := 0 |} =
    Ok {| version := "1004123"; truncateUILen := 512; truncateErrLen := 0 |} /\
  IsMySQL80AndAbove {| version := "1004123"; truncateUILen := 512; truncateErrLen := 0 |} = false.
Proof.
  split; [reflexivity |].
  exact (IsMySQL80AndAbove_first_digit "8.0.30"
           {| MySQLServerVersion := "10.4.123"; TruncateUILen := 512; TruncateErrLen := 0 |}
           {| version := "1004123"; truncateUILen := 512; truncateErrLen := 0 |} eq_refl).
Defined.

(** X10 at an empty statement followed by a DDL that stops in the middle:
    the strict call answers the partial DDL, with a nil error. *)
Lemma strict_after_an_empty_statement :
  (cur (if cur empty_then_partial =? 59 then skipBlank (skip 1 empty_then_partial)
        else empty_then_partial) =? eofChar) = false /\
  yyParsePooled_on
    (set_multi (reset (if cur empty_then_partial =? 59
                       then skipBlank (skip 1 empty_then_partial)
                       else empty_then_partial)) true) = (0, after_empty) /\
  (ParseTree after_empty = None \/ ParseTree after_empty = Some stmt_CommentOnly) /\
  ParseNext 1 after_empty = Some (Ok (Some (stmt_DDL t1)), after_partial) /\
  ParseNextStrictDDL 2 empty_then_partial = ParseNext 1 after_empty.
Proof.
  split; [reflexivity |]. split; [reflexivity |]. split; [left; reflexivity |].
  split; [reflexivity |].
  apply (ParseNextStrictDDL_strict_for_one_statement 1 empty_then_partial after_empty).
  - reflexivity.
  - reflexivity.
  - left. reflexivity.
Defined.

(** X11 at one statement, with and without its semicolon. *)
Lemma pieces_of_one_statement :
  no_semicolon "select 1" = true /\
  SplitStatementToPieces 0 parser80 "select 1" = Some (Ok (["select 1"%string], None)) /\
  SplitStatementToPieces 0 parser80 "select 1;" = Some (Ok (["select 1"%string], None)).
Proof.
  split; [reflexivity |].
  apply (SplitStatementToPieces_one_statement 0 parser80 "select 1"). reflexivity.
Defined.

(** X13 at [create table t1 (id int]. *)
Lemma partial_create_table_must_reload :
  yyParsePooled_on (NewStringTokenizer parser80 "create table t1 (id int") =
    (1, {| LastError := Some syntax_error; partialDDL := Some (stmt_DDL t1);
           ParseTree := None; BindVars_ := (); multi := false; Pos := 0; scanner := [] |}) /\
  tracked "commerce" (GetTable t1) = true /\
  ParseStrictDDL parser80 "create table t1 (id int" = Err syntax_error /\
  Parse parser80 "create table t1 (id int" =
    Ok (Some (stmt_DDL {| ddl_table := (""%string, "t1"%string); ddl_fully_parsed := false |})) /\
  MustReloadSchemaOnDDL "create table t1 (id int" "commerce" parser80 = Ok true.
Proof.
  split; [reflexivity |]. split; [reflexivity |].
  refine (partial_DDL_must_reload "create table t1 (id int" "commerce" parser80 1
            {| LastError := Some syntax_error; partialDDL := Some (stmt_DDL t1);
               ParseTree := None; BindVars_ := (); multi := false; Pos := 0; scanner := [] |}
            t1 syntax_error eq_refl _ eq_refl eq_refl eq_refl eq_refl eq_refl).
  discriminate.
Defined.

(** X17 at a DDL event that comes before any GTID event. *)
Lemma ddl_event_before_any_gtid :
  no_gtid [ddl_event] = true /\
  exists seg : list event,
    snd (process_send [ddl_event] "" []) = [] ++ seg /\
    forallb is_counter_add seg = true /\
    (is_ok (fst (process_send [ddl_event] "" [])) = true ->
     length seg = count must_save [ddl_event]).
Proof.
  split; [reflexivity |].
  apply (process_send_without_gtid [ddl_event] []). reflexivity.
Defined.

(** X18 after two calls of [Open] that run together. *)
Lemma two_calls_of_Open :
  perform_all [Open_test; Open_test; Open_locked; Open_locked] (start true) =
    Some {| tr := {| enabled := true; cancel := Some 0%nat; wg := 1 |};
            closing := false; opening := 0; procs := [0%nat]; cancelled := [];
            contexts := 1 |} /\
  1 = Z.of_nat (length [0%nat]) /\
  (length [0%nat] <= 1)%nat /\
  (Some 0%nat = None -> false = false -> [0%nat] = []) /\
  (forall c, c ∈ [0%nat] -> Some 0%nat = Some c \/ c ∈ @nil nat).
Proof.
  split; [reflexivity |].
  exact (tracker_runs_one_process true [Open_test; Open_test; Open_locked; Open_locked]
           {| tr := {| enabled := true; cancel := Some 0%nat; wg := 1 |};
              closing := false; opening := 0; procs := [0%nat]; cancelled := [];
              contexts := 1 |} eq_refl).
Defined.

(** X19 at a tracker whose [process] has returned: [Open], [Enable(true)]
    and [Open] again leave it as it is. *)
Lemma Open_does_not_restart :
  forallb (fun a => negb (is_Close_locked a))
    [Open_test; Open_locked; Enable_locked true; Open_test; Open_locked] = true /\
  cancel (tr dead_tracker) = Some 0%nat /\
  procs dead_tracker = [] /\
  perform_all [Open_test; Open_locked; Enable_locked true; Open_test; Open_locked] dead_tracker =
    Some dead_tracker /\
  cancel (tr dead_tracker) = Some 0%nat /\ procs dead_tracker = [].
Proof.
  split; [reflexivity |]. split; [reflexivity |]. split; [reflexivity |].
  split; [reflexivity |].
  apply (tracker_is_not_restarted
           [Open_test; Open_locked; Enable_locked true; Open_test; Open_locked]
           dead_tracker dead_tracker 0%nat); reflexivity.
Defined.

(** X21 at a call of [Close] that follows a call of [Open]. *)
Lemma Close_after_Open :
  perform_all [Open_test; Open_locked; Close_locked] (start true) = Some closing_tracker /\
  closing closing_tracker = true /\
  exists s' : system,
    perform_all (map process_returns (procs closing_tracker) ++ [Close_waited])
      closing_tracker = Some s' /\
    closing s' = false /\ procs s' = [] /\ cancel (tr s') = None /\ wg (tr s') = 0.
Proof.
  split; [reflexivity |]. split; [reflexivity |].
  apply (Close_returns_when_process_does true [Open_test; Open_locked; Close_locked]
           closing_tracker); reflexivity.
Defined.

End MoreInstances.
